(** * prefect.logging.configuration: loading and one-time set-up of logging

    A shallow embedding of [src/prefect/logging/configuration.py].

    - Python values produced by [yaml.safe_load] are the inductive [value];
      a [dict] is an association list in insertion order with pairwise
      distinct keys, and [==] on values is [py_eq].
    - Exceptions are an explicit [outcome]; the module global
      [PROCESS_LOGGING_CONFIG], the logger registry of the [logging] module
      and the warnings channel are fields of one process state that is
      threaded through [setup_logging].
    - Dictionary keys are strings, as in the data model of the spec; a
      YAML document with other keys is outside the model.
    - Strings are [string]s of 8-bit characters; a character above 127
      stands for any non-ASCII code point (never alphanumeric for the
      regular expressions used here).  Floating-point YAML scalars are
      left out of [value]. *)

From stdpp Require Import base list strings gmap.
From Stdlib Require Import ZArith Ascii String.

Local Open Scope string_scope.
Local Open Scope list_scope.

(** ** Python values and dictionaries *)

#[local] Unset Elimination Schemes.
Inductive value :=
| VNone
| VBool (b : bool)
| VInt (n : Z)
| VStr (s : string)
| VList (l : list value)
| VDict (d : list (string * value)).
#[local] Set Elimination Schemes.

Abbreviation pydict := (list (string * value)).
(** A key-path is a tuple of keys. *)
Abbreviation keypath := (list string).
Abbreviation flatdict := (list (keypath * value)).

(** [d.get(k)] *)
Fixpoint dict_get (d : pydict) (k : string) : option value :=
  match d with
  | [] => None
  | (k', v) :: r => if String.eqb k k' then Some v else dict_get r k
  end.

(** [d[k] = v]: an existing key keeps its position, a new key goes last. *)
Fixpoint dict_set (d : pydict) (k : string) (v : value) : pydict :=
  match d with
  | [] => [(k, v)]
  | (k', v') :: r =>
      if String.eqb k k' then (k', v) :: r else (k', v') :: dict_set r k v
  end.

Definition keys (d : pydict) : list string := fst <$> d.

(** [bool(x)] for the values that [PROCESS_LOGGING_CONFIG] can hold. *)
Definition truthy (o : option pydict) : bool :=
  match o with
  | None => false
  | Some [] => false
  | Some (_ :: _) => true
  end.

(** Numeric view used by [==]: [True == 1] and [False == 0] in Python. *)
Definition as_number (v : value) : option Z :=
  match v with
  | VBool b => Some (if b then 1 else 0)%Z
  | VInt n => Some n
  | _ => None
  end.

(** [a == b].  Lists compare element-wise in order; dictionaries compare
    as maps (same number of keys, and every key of [a] bound in [b] to an
    equal value).  Floating-point values are not in [value]: a NaN, which
    is unequal to itself in Python, has no counterpart here. *)
Fixpoint py_eq (a b : value) {struct a} : bool :=
  match a with
  | VNone => match b with VNone => true | _ => false end
  | VBool _ | VInt _ =>
      match as_number a, as_number b with
      | Some x, Some y => Z.eqb x y
      | _, _ => false
      end
  | VStr s => match b with VStr t => String.eqb s t | _ => false end
  | VList l =>
      match b with
      | VList l' =>
          (fix go (l l' : list value) {struct l} : bool :=
             match l, l' with
             | [], [] => true
             | x :: r, y :: r' => py_eq x y && go r r'
             | _, _ => false
             end) l l'
      | _ => false
      end
  | VDict d =>
      match b with
      | VDict d' =>
          Nat.eqb (List.length d) (List.length d') &&
          (fix go (d : pydict) : bool :=
             match d with
             | [] => true
             | (k, x) :: r =>
                 match dict_get d' k with
                 | Some y => py_eq x y
                 | None => false
                 end && go r
             end) d
      | _ => false
      end
  end.

(** Distinct keys in every dictionary of a value, the invariant of a
    Python [dict]. *)
Fixpoint wf_value (v : value) : Prop :=
  match v with
  | VList l =>
      (fix go (l : list value) : Prop :=
         match l with
         | [] => True
         | x :: r => wf_value x /\ go r
         end) l
  | VDict d =>
      NoDup (keys d) /\
      (fix go (d : pydict) : Prop :=
         match d with
         | [] => True
         | (_, x) :: r => wf_value x /\ go r
         end) d
  | _ => True
  end.

Definition wf_dict (d : pydict) : Prop := wf_value (VDict d).

(** ** prefect.utilities.collections: flattening *)

Definition under (k : string) (e : keypath * value) : keypath * value :=
  (k :: fst e, snd e).

(** Auxiliary recursion on [value]; only the [VDict] case matters. *)
Fixpoint flat_items (v : value) : flatdict :=
  match v with
  | VDict d =>
      (fix go (d : pydict) : flatdict :=
         match d with
         | [] => []
         | (k, x) :: r =>
             match x with
             | VDict (_ :: _) => under k <$> flat_items x
             | _ => [([k], x)]
             end ++ go r
         end) d
  | _ => []
  end.

(** A value that [dict_to_flatdict] does not descend into. *)
Definition is_leaf (v : value) : Prop :=
  match v with
  | VDict (_ :: _) => False
  | _ => True
  end.

(** Modelled from the spec: [dict_to_flatdict] of
    [prefect.utilities.collections], imported by the module; its source is
    not among the files embedded here.  Section 4.1 says: a nested mapping becomes a
    mapping from key-paths to leaf values; the keys of nested mappings
    become the successive elements of the key-path; lists are opaque
    leaves; the empty mapping gives the empty mapping; the conversion is
    lossless.  The spec does not say what happens to a nested mapping that
    has no key.  This model keeps it as the value at its own position,
    the reading under which the conversion is lossless as section 3
    requires; a function that recursed into it would drop it. *)
Definition dict_to_flatdict (d : pydict) : flatdict := flat_items (VDict d).

(** The mapping already nested under [k], or a new empty one. *)
Definition sub_dict (d : pydict) (k : string) : pydict :=
  match dict_get d k with
  | Some (VDict s) => s
  | _ => []
  end.

(** One step of the inverse: bind [v] at key-path [p], creating the
    intermediate mappings that do not exist yet. *)
Fixpoint insert_path (p : keypath) (v : value) (d : pydict) : pydict :=
  match p with
  | [] => d
  | k :: p' =>
      match p' with
      | [] => dict_set d k v
      | _ :: _ => dict_set d k (VDict (insert_path p' v (sub_dict d k)))
      end
  end.

Definition insert_item (acc : pydict) (e : keypath * value) : pydict :=
  insert_path (fst e) (snd e) acc.

(** Modelled from the spec: [flatdict_to_dict] of
    [prefect.utilities.collections], the inverse of [dict_to_flatdict]
    (section 4.1): every key-path is re-nested, in the order of the flat
    mapping; the empty mapping gives the empty mapping. *)
Definition flatdict_to_dict (f : flatdict) : pydict :=
  foldl insert_item [] f.

(** ** Environment variable names *)

Definition is_digit (c : ascii) : bool :=
  Nat.leb 48 (nat_of_ascii c) && Nat.leb (nat_of_ascii c) 57.
Definition is_lower (c : ascii) : bool :=
  Nat.leb 97 (nat_of_ascii c) && Nat.leb (nat_of_ascii c) 122.
Definition is_upper (c : ascii) : bool :=
  Nat.leb 65 (nat_of_ascii c) && Nat.leb (nat_of_ascii c) 90.

(** The character class [[0-9a-zA-Z]]. *)
Definition is_alnum (c : ascii) : bool := is_digit c || is_lower c || is_upper c.

(** [re.sub(r"[^0-9a-zA-Z]+", "_", s)], scanning left to right; [in_run]
    tells that the current match of the pattern has already been replaced. *)
Fixpoint sub_non_alnum (in_run : bool) (s : string) : string :=
  match s with
  | EmptyString => EmptyString
  | String c r =>
      if is_alnum c then String c (sub_non_alnum false r)
      else if in_run then sub_non_alnum true r
      else String "_"%char (sub_non_alnum true r)
  end.

(** [to_envvar = partial(re.sub, re.compile(r"[^0-9a-zA-Z]+"), "_")] *)
Definition to_envvar (s : string) : string := sub_non_alnum false s.

Definition upper_char (c : ascii) : ascii :=
  if is_lower c then ascii_of_nat (nat_of_ascii c - 32) else c.

(** [str.upper] on text made of ASCII characters, where it changes the
    letters [a]-[z] and nothing else.  The code applies it to the result
    of [to_envvar] only, which is such a text.  On other text it is not
    [str.upper], which also changes letters outside ASCII (and can
    lengthen the text): it is not to be read as [str.upper] of a key. *)
Fixpoint upper (s : string) : string :=
  match s with
  | EmptyString => EmptyString
  | String c r => String (upper_char c) (upper r)
  end.

(** The argument of [os.environ.get] in [load_logging_config]:
    [to_envvar("PREFECT_LOGGING_" + "_".join(key_tup)).upper()]. *)
Definition envvar_name (key_tup : keypath) : string :=
  upper (to_envvar ("PREFECT_LOGGING_" +:+ String.concat "_" key_tup)).

(** The derivation as section 4.2 words it, for comparison with the code.
    It is written without the functions of the code: the class
    [[0-9a-zA-Z]] is membership in the three alphabets. *)
Definition digit_letters : string := "0123456789".
Definition lower_letters : string := "abcdefghijklmnopqrstuvwxyz".
Definition upper_letters : string := "ABCDEFGHIJKLMNOPQRSTUVWXYZ".

Definition member (c : ascii) (alphabet : string) : bool :=
  existsb (Ascii.eqb c) (list_ascii_of_string alphabet).

Definition in_class (c : ascii) : bool :=
  member c digit_letters || member c lower_letters || member c upper_letters.

(** The text is cut into its maximal runs of characters that are all
    inside, or all outside, the class ... *)
Fixpoint runs (s : string) : list (bool * string) :=
  match s with
  | EmptyString => []
  | String c r =>
      match runs r with
      | (b, g) :: gs =>
          if Bool.eqb (in_class c) b then (b, String c g) :: gs
          else (in_class c, String c EmptyString) :: (b, g) :: gs
      | [] => [(in_class c, String c EmptyString)]
      end
  end.

(** Neighbouring runs lie on different sides of the class. *)
Fixpoint alternating (gs : list (bool * string)) : Prop :=
  match gs with
  | g :: ((g' :: _) as r) => fst g <> fst g' /\ alternating r
  | _ => True
  end.

(** ... every run outside the class becomes one ["_"] ... *)
Definition render_run (g : bool * string) : string :=
  if fst g then snd g else "_".

Definition replace_runs (s : string) : string :=
  String.concat EmptyString (render_run <$> runs s).

(** ... and the whole is upper-cased, letter by letter after the two
    alphabets ... *)
Fixpoint translate (c : ascii) (from to : string) : ascii :=
  match from, to with
  | String a from', String b to' =>
      if Ascii.eqb c a then b else translate c from' to'
  | _, _ => c
  end.

Fixpoint upper_case (s : string) : string :=
  match s with
  | EmptyString => EmptyString
  | String c r => String (translate c lower_letters upper_letters) (upper_case r)
  end.

(** ... after joining prefix and key-path with ["_"]. *)
Definition derive_env_name (prefix : string) (key_path : keypath) : string :=
  upper_case (replace_runs (String.concat "_" (prefix :: key_path))).

(** Characters allowed in a derived name: digits, capital letters and
    the underscore. *)
Definition is_env_char (c : ascii) : bool :=
  member c digit_letters || member c upper_letters || Ascii.eqb c "_"%char.

(** ** Exceptions *)

Inductive exn :=
| KeyError (key : string)
| ValueError (msg : string)
| AttributeError (msg : string)
| OSError (msg : string)
| YAMLError (msg : string).

Inductive outcome (A : Type) :=
| Ret (a : A)
| Raise (e : exn).
Arguments Ret {A} a.
Arguments Raise {A} e.

Definition obind {A B} (x : outcome A) (f : A -> outcome B) : outcome B :=
  match x with
  | Ret a => f a
  | Raise e => Raise e
  end.

Notation "'do' x <- c1 ; c2" := (obind c1 (fun x => c2))
  (at level 10, x name, c1 at level 100, c2 at level 200).

(** ** string.Template.substitute *)

(** First and later characters of an identifier: [Template.idpattern] is
    an underscore or ASCII letter followed by underscores, ASCII letters
    and digits, matched under [re.IGNORECASE]. *)
Definition is_id_start (c : ascii) : bool :=
  is_lower c || is_upper c || Ascii.eqb c "_"%char.
Definition is_id_char (c : ascii) : bool := is_id_start c || is_digit c.

(** Where the scanner stands relative to the delimiter ["$"]. *)
Inductive tstate :=
| TText                    (* outside a placeholder *)
| TDelim                   (* just after "$" *)
| TNamed (id : string)     (* inside $identifier *)
| TBrace                   (* just after "${" *)
| TBraced (id : string).   (* inside ${identifier *)

Definition invalid_placeholder {A} : outcome A :=
  Raise (ValueError "Invalid placeholder in string").

(** [mapping[id]] of the substitution. *)
Definition subst_lookup (mapping : gmap string string) (id : string)
  : outcome string :=
  match mapping !! id with
  | Some v => Ret v
  | None => Raise (KeyError id)
  end.

(** [Template.pattern.sub(convert, template)]: the alternatives of the
    pattern are [$$] (escape), [$identifier], [${identifier}] and, for
    any other ["$"], the group [invalid], on which [convert] raises
    [ValueError]; a name missing from [mapping] raises [KeyError].  The
    matches are converted from left to right, so the first failure wins. *)
Fixpoint template_scan (mapping : gmap string string) (st : tstate)
    (s : string) : outcome string :=
  match s with
  | EmptyString =>
      match st with
      | TText => Ret EmptyString
      | TNamed id => subst_lookup mapping id
      | TDelim | TBrace | TBraced _ => invalid_placeholder
      end
  | String c r =>
      match st with
      | TText =>
          if Ascii.eqb c "$"%char then template_scan mapping TDelim r
          else do rest <- template_scan mapping TText r; Ret (String c rest)
      | TDelim =>
          if Ascii.eqb c "$"%char then
            do rest <- template_scan mapping TText r; Ret (String "$"%char rest)
          else if is_id_start c then
            template_scan mapping (TNamed (String c EmptyString)) r
          else if Ascii.eqb c "{"%char then template_scan mapping TBrace r
          else invalid_placeholder
      | TNamed id =>
          if is_id_char c then
            template_scan mapping (TNamed (id +:+ String c EmptyString)) r
          else
            do v <- subst_lookup mapping id;
            do rest <- (if Ascii.eqb c "$"%char
                        then template_scan mapping TDelim r
                        else do rest <- template_scan mapping TText r;
                             Ret (String c rest));
            Ret (v +:+ rest)
      | TBrace =>
          if is_id_start c then
            template_scan mapping (TBraced (String c EmptyString)) r
          else invalid_placeholder
      | TBraced id =>
          if is_id_char c then
            template_scan mapping (TBraced (id +:+ String c EmptyString)) r
          else if Ascii.eqb c "}"%char then
            do v <- subst_lookup mapping id;
            do rest <- template_scan mapping TText r;
            Ret (v +:+ rest)
          else invalid_placeholder
      end
  end.

(** [string.Template(text).substitute(mapping)] *)
Definition substitute (text : string) (mapping : gmap string string)
  : outcome string :=
  template_scan mapping TText text.

(** The names that a template refers to: the identifiers of all matches
    of [Template.pattern] with a [$identifier] or [${identifier}] group, in
    order.  After an ill-formed ["$"] the pattern matches that character
    alone and the search goes on behind it. *)
Fixpoint template_names (st : tstate) (s : string) : list string :=
  match s with
  | EmptyString =>
      match st with
      | TNamed id => [id]
      | _ => []
      end
  | String c r =>
      let resume :=
        if Ascii.eqb c "$"%char then template_names TDelim r
        else template_names TText r in
      match st with
      | TText => resume
      | TDelim =>
          if Ascii.eqb c "$"%char then template_names TText r
          else if is_id_start c then
            template_names (TNamed (String c EmptyString)) r
          else if Ascii.eqb c "{"%char then template_names TBrace r
          else resume
      | TNamed id =>
          if is_id_char c then
            template_names (TNamed (id +:+ String c EmptyString)) r
          else id :: resume
      | TBrace =>
          if is_id_start c then
            template_names (TBraced (String c EmptyString)) r
          else resume
      | TBraced id =>
          if is_id_char c then
            template_names (TBraced (id +:+ String c EmptyString)) r
          else if Ascii.eqb c "}"%char then id :: template_names TText r
          else resume
      end
  end.

Definition placeholders (text : string) : list string :=
  template_names TText text.

(** The exceptions with which [substitute] rejects a template: an
    ill-formed placeholder, or a name that [mapping] does not have. *)
Definition template_error (mapping : gmap string string) (e : exn) : Prop :=
  e = ValueError "Invalid placeholder in string" \/
  exists id, e = KeyError id /\ mapping !! id = None.

(** ** The logging module: loggers and their registry *)

(** The attributes of a [logging.Logger] that [setup_logging] reads and
    writes.  A handler object is identified by a number. *)
Record Logger := {
  handlers : list nat;
  level : Z;
  propagate : bool
}.

Definition NOTSET : Z := 0.

(** A logger as [logging.getLogger] creates it. *)
Definition new_logger : Logger :=
  {| handlers := []; level := NOTSET; propagate := true |}.

(** [logging.getLogger(name)] returns the root logger for the empty name
    and for ["root"]; loggers are referred to by their key in the
    registry, so that two names of one logger share its state. *)
Definition logger_key (name : string) : string :=
  if String.eqb name EmptyString then "root" else name.

(** The registry after [logging.getLogger(name)], which creates the logger
    when it does not exist yet. *)
Definition getLogger (name : string) (reg : gmap string Logger)
  : gmap string Logger :=
  match reg !! logger_key name with
  | Some _ => reg
  | None => <[logger_key name := new_logger]> reg
  end.

(** The logger object bound to [key]. *)
Definition logger_at (reg : gmap string Logger) (key : string) : Logger :=
  default new_logger (reg !! key).

(** [Logger.addHandler]: appended unless already present. *)
Definition addHandler (h : nat) (l : Logger) : Logger :=
  if bool_decide (h ∈ handlers l) then l
  else {| handlers := handlers l ++ [h]; level := level l;
          propagate := propagate l |}.

Definition setLevel (lvl : Z) (l : Logger) : Logger :=
  {| handlers := handlers l; level := lvl; propagate := propagate l |}.

Definition set_propagate (b : bool) (l : Logger) : Logger :=
  {| handlers := handlers l; level := level l; propagate := b |}.

(** Body of [for handler in extra_config.handlers] (lines 102-105), with
    [extra] and [target] the keys of [extra_config] and [logger].  The
    attributes of [extra_config] are read from the registry at the moment
    of use, as the code reads them from the live object. *)
Definition copy_handler (extra target : string) (reg : gmap string Logger)
    (handler : nat) : gmap string Logger :=
  let reg1 := alter (addHandler handler) target reg in
  let reg2 :=
    if Z.eqb (level (logger_at reg1 target)) NOTSET
    then alter (setLevel (level (logger_at reg1 extra))) target reg1
    else reg1 in
  alter (set_propagate (propagate (logger_at reg2 extra))) target reg2.

(** Body of [for logger_name in ...] (lines 100-105). *)
Definition copy_extra_config (reg : gmap string Logger)
    (logger_name : string) : gmap string Logger :=
  let reg0 := getLogger logger_name reg in
  foldl (copy_handler "prefect.extra" (logger_key logger_name)) reg0
        (handlers (logger_at reg0 "prefect.extra")).

(** Lines 97-105: copy the configuration of ['prefect.extra']. *)
Definition configure_extra_loggers (names : list string)
    (reg : gmap string Logger) : gmap string Logger :=
  foldl copy_extra_config (getLogger "prefect.extra" reg) names.

(** ** External collaborators *)

(** An entry of the settings registry: its [name] and, for a settings
    snapshot, the text [str(setting.value_from(settings))]. *)
Record Setting (S : Type) := {
  name : string;
  value_from : S -> string
}.
Arguments name {S} _.
Arguments value_from {S} _ _.

(** What the module imports from [prefect.settings], [yaml] and
    [logging.config].  [configure] is the wiring that
    [logging.config.dictConfig] performs once it has accepted the version
    of the configuration; it may raise, and it returns the registry it
    leaves behind in either case. *)
Class Externals := {
  Settings : Type;
  SETTINGS : list (Setting Settings);
  PREFECT_LOGGING_SETTINGS_PATH : Settings -> string;
  PREFECT_LOGGING_EXTRA_LOGGERS : Settings -> list string;
  DEFAULT_LOGGING_SETTINGS_PATH : string;
  yaml_safe_load : string -> outcome value;
  configure : pydict -> gmap string Logger -> outcome unit * gmap string Logger
}.

(** What a call observes of its surroundings: the file system through
    [Path.exists] and [Path.read_text], and [os.environ]. *)
Record world := {
  path_exists : string -> bool;
  read_text : string -> outcome string;
  environ : gmap string string
}.

(** ** load_logging_config *)

(** Lines 52-57: the value kept for one flattened key; a variable that is
    unset or empty ([if env_val:]) leaves the value alone. *)
Definition env_override (env : gmap string string) (key_tup : keypath)
    (val : value) : value :=
  match env !! envvar_name key_tup with
  | Some env_val => if String.eqb env_val EmptyString then val else VStr env_val
  | None => val
  end.

(** Lines 47-62: overrides from the environment.  Assigning to a key
    that the flat dictionary already has keeps the order of its items. *)
Definition apply_env_overrides (env : gmap string string) (config : pydict)
  : pydict :=
  flatdict_to_dict
    ((fun kv : keypath * value =>
        (fst kv, env_override env (fst kv) (snd kv)))
       <$> dict_to_flatdict config).

(** The overrides written as a walk over the nested configuration, for
    comparison with the flatten, assign and re-nest of the code: [g]
    receives the key-path of a leaf and its value. *)
Fixpoint map_leaves_value (g : keypath -> value -> value) (v : value) : value :=
  match v with
  | VDict d =>
      VDict
        ((fix go (d : pydict) : pydict :=
            match d with
            | [] => []
            | (k, x) :: r =>
                (k, match x with
                    | VDict (_ :: _) => map_leaves_value (fun p => g (k :: p)) x
                    | _ => g [k] x
                    end) :: go r
            end) d)
  | _ => v
  end.

Definition map_leaves (g : keypath -> value -> value) (d : pydict) : pydict :=
  match map_leaves_value g (VDict d) with
  | VDict d' => d'
  | _ => []
  end.

Section Loading.
Context `{E : Externals}.

(** The dictionary comprehension of lines 40-43; a later setting of the
    same name replaces an earlier one. *)
Definition template_mapping (settings : Settings) : gmap string string :=
  foldl (fun m setting => <[name setting := value_from setting settings]> m)
        ∅ SETTINGS.

(** Lines 37-45: interpolate the settings and parse. *)
Definition resolve_template (text : string) (settings : Settings)
  : outcome value :=
  do interpolated <- substitute text (template_mapping settings);
  yaml_safe_load interpolated.

(** [load_logging_config(path, settings)].  Flattening anything but a
    dictionary has no [items] to iterate and raises. *)
Definition load_logging_config (w : world) (path : string)
    (settings : Settings) : outcome pydict :=
  do text <- read_text w path;
  do config <- resolve_template text settings;
  match config with
  | VDict d => Ret (apply_env_overrides (environ w) d)
  | _ => Raise (AttributeError "object has no attribute 'items'")
  end.
End Loading.

(** ** setup_logging *)

(** What the process shows to the outside.  [warnings.warn] is taken to
    record the warning and return, as it does unless the warnings filter
    turns warnings into errors. *)
Inductive event :=
| DictConfig (config : pydict)   (* logging.config.dictConfig(config) was called *)
| Warning (config_diff : pydict). (* warnings.warn(...) was called *)

(** The module global, the registry of the [logging] module and the
    calls made so far, oldest first. *)
Record process := {
  PROCESS_LOGGING_CONFIG : option pydict;
  loggers : gmap string Logger;
  trace : list event
}.

Definition initial_process (reg : gmap string Logger) : process :=
  {| PROCESS_LOGGING_CONFIG := None; loggers := reg; trace := [] |}.

Definition emit (e : event) (st : process) : process :=
  {| PROCESS_LOGGING_CONFIG := PROCESS_LOGGING_CONFIG st;
     loggers := loggers st;
     trace := trace st ++ [e] |}.

Definition set_loggers (reg : gmap string Logger) (st : process) : process :=
  {| PROCESS_LOGGING_CONFIG := PROCESS_LOGGING_CONFIG st;
     loggers := reg;
     trace := trace st |}.

Definition set_config (config : pydict) (st : process) : process :=
  {| PROCESS_LOGGING_CONFIG := Some config;
     loggers := loggers st;
     trace := trace st |}.

(** Lines 81-85: the comprehension looks every key of the new
    configuration up in the stored one with [PROCESS_LOGGING_CONFIG[key]]. *)
Fixpoint config_diff (stored config : pydict) : outcome pydict :=
  match config with
  | [] => Ret []
  | (key, val) :: rest =>
      match dict_get stored key with
      | None => Raise (KeyError key)
      | Some old =>
          do diff <- config_diff stored rest;
          Ret (if negb (py_eq old val) then (key, val) :: diff else diff)
      end
  end.

Section Setup.
Context `{E : Externals}.

(** [logging.config.dictConfig(config)], a function of the Python standard
    library and not of this repository.  What is modelled of it is the
    opening check of CPython's [DictConfigurator.configure], which refuses
    a dictionary without ['version'] or with a version other than 1
    before it touches any logger; the wiring that follows is the
    parameter [configure]. *)
Definition dictConfig (config : pydict) (st : process)
  : outcome unit * process :=
  let st := emit (DictConfig config) st in
  match dict_get config "version" with
  | None => (Raise (ValueError "dictionary doesn't specify a version"), st)
  | Some v =>
      if py_eq v (VInt 1) then
        let (r, reg) := configure config (loggers st) in
        (r, set_loggers reg st)
      else (Raise (ValueError "Unsupported version"), st)
  end.

(** Lines 71-75: the user's file when it exists, the default otherwise. *)
Definition logging_path (w : world) (settings : Settings) : string :=
  if path_exists w (PREFECT_LOGGING_SETTINGS_PATH settings)
  then PREFECT_LOGGING_SETTINGS_PATH settings
  else DEFAULT_LOGGING_SETTINGS_PATH.

(** [setup_logging(settings)] in the surroundings [w]. *)
Definition setup_logging (w : world) (settings : Settings) (st : process)
  : outcome unit * process :=
  match load_logging_config w (logging_path w settings) settings with
  | Raise e => (Raise e, st)
  | Ret config =>
      if truthy (PROCESS_LOGGING_CONFIG st) then
        match config_diff (default [] (PROCESS_LOGGING_CONFIG st)) config with
        | Raise e => (Raise e, st)
        | Ret [] => (Ret tt, st)
        | Ret (d :: ds) => (Ret tt, emit (Warning (d :: ds)) st)
        end
      else
        match dictConfig config st with
        | (Raise e, st1) => (Raise e, st1)
        | (Ret _, st1) =>
            let reg :=
              configure_extra_loggers
                (PREFECT_LOGGING_EXTRA_LOGGERS settings) (loggers st1) in
            (Ret tt, set_config config (set_loggers reg st1))
        end
  end.

(** A run of the process: one call after the other, whatever each call
    returns or raises. *)
Definition run (calls : list (world * Settings)) (st : process) : process :=
  foldl (fun st c => snd (setup_logging (fst c) (snd c) st)) st calls.
End Setup.

(** How often [dictConfig] was called, and how often a warning was given. *)
Definition dictConfig_calls (t : list event) : list pydict :=
  omap (fun e => match e with DictConfig c => Some c | _ => None end) t.
Definition warnings (t : list event) : list pydict :=
  omap (fun e => match e with Warning d => Some d | _ => None end) t.

(** The stored configuration, when there is one, is not the empty
    dictionary, so that [if PROCESS_LOGGING_CONFIG:] tells set from unset. *)
Definition stored_nonempty (st : process) : Prop :=
  forall config, PROCESS_LOGGING_CONFIG st = Some config -> config <> [].

(** What one pass of the loop body over a handler makes of a logger [T]
    that is not ['prefect.extra'] itself, whose attributes are [X]. *)
Definition copy_onto (X T : Logger) (handler : nat) : Logger :=
  let T1 := addHandler handler T in
  let T2 := if Z.eqb (level T1) NOTSET then setLevel (level X) T1 else T1 in
  set_propagate (propagate X) T2.

(** The level of a logger after the copy: taken over only when the logger
    had none of its own. *)
Definition copied_level (own extra : Z) : Z :=
  if Z.eqb own NOTSET then extra else own.

(** ** Further notions used by the properties of the code *)

(** A text of letters, digits and single underscores: no other character,
    and no two underscores in a row. *)
Fixpoint name_chars (after_underscore : bool) (s : string) : bool :=
  match s with
  | EmptyString => true
  | String c r =>
      if is_alnum c then name_chars false r
      else Ascii.eqb c "_"%char && negb after_underscore && name_chars true r
  end.

(** Two characters that are the same, or the same ASCII letter in two
    cases; two texts that are so character by character.  Characters
    outside ASCII have to be the same. *)
Definition same_letter (c d : ascii) : bool :=
  Ascii.eqb c d ||
  ((is_lower c || is_upper c) && (is_lower d || is_upper d) &&
   Ascii.eqb (upper_char c) (upper_char d)).

Fixpoint same_up_to_case (s t : string) : bool :=
  match s, t with
  | EmptyString, EmptyString => true
  | String c s', String d t' => same_letter c d && same_up_to_case s' t'
  | _, _ => false
  end.

(** The condition of the comprehension of lines 81-85 for an item whose
    key the stored configuration has. *)
Definition differs (stored : pydict) (item : string * value) : bool :=
  match dict_get stored (fst item) with
  | Some old => negb (py_eq old (snd item))
  | None => false
  end.

(** ** Example data *)

Module Example.
(** [{handlers: {console: {level: "INFO"}}}] of section 8. *)
Definition console_config : pydict :=
  [("handlers", VDict [("console", VDict [("level", VStr "INFO")])])].

(** A configuration with every kind of value, an empty nested mapping
    included. *)
Definition mixed_config : pydict :=
  [("version", VInt 1);
   ("disable_existing_loggers", VBool false);
   ("filters", VDict []);
   ("handlers",
     VDict [("console", VDict [("level", VStr "INFO"); ("stream", VNone)]);
            ("api", VDict [("level", VInt 0)])]);
   ("tags", VList [VStr "a"; VDict [("k", VInt 2)]])].

Definition debug_env : gmap string string :=
  {[ "PREFECT_LOGGING_HANDLERS_CONSOLE_LEVEL" := "DEBUG" ]}.

(** A loader for the YAML documents of the examples: one [key: scalar]
    pair per line, a scalar made of digits being an integer and any
    other a string; the empty document is [None]. *)
Definition newline : string := String "010"%char EmptyString.

Fixpoint lines (s : string) : list string :=
  match s with
  | EmptyString => [EmptyString]
  | String c r =>
      if Ascii.eqb c "010"%char then EmptyString :: lines r
      else match lines r with
           | l :: ls => String c l :: ls
           | [] => [String c EmptyString]
           end
  end.

Fixpoint split_pair (s : string) : option (string * string) :=
  match s with
  | EmptyString => None
  | String c r =>
      if Ascii.eqb c ":"%char && prefix ": " s then
        Some (EmptyString, substring 1 (String.length r - 1) r)
      else match split_pair r with
           | Some (k, v) => Some (String c k, v)
           | None => None
           end
  end.

Definition scalar (s : string) : value :=
  if negb (String.eqb s EmptyString) && forallb is_digit (list_ascii_of_string s)
  then VInt (fold_left (fun acc c => 10 * acc + Z.of_nat (nat_of_ascii c - 48))%Z
                       (list_ascii_of_string s) 0%Z)
  else VStr s.

Fixpoint pairs (ls : list string) : outcome (list (string * value)) :=
  match ls with
  | [] => Ret []
  | l :: r =>
      if String.eqb l EmptyString then pairs r
      else match split_pair l with
           | Some (k, v) => do d <- pairs r; Ret ((k, scalar v) :: d)
           | None => Raise (YAMLError "expected 'key: scalar'")
           end
  end.

(** A key given twice keeps its place and takes the later value. *)
Definition flat_yaml (text : string) : outcome value :=
  if String.eqb text EmptyString then Ret VNone
  else do kvs <- pairs (lines text);
       Ret (VDict (foldl (fun d kv => dict_set d (fst kv) (snd kv)) [] kvs)).

(** The settings snapshot of the examples is the log level. *)
Definition registry : list (Setting string) :=
  [ {| name := "LOG_LEVEL"; value_from := fun level => level |} ].

(** A wiring that gives ['prefect.extra'] one handler. *)
Definition wire (config : pydict) (reg : gmap string Logger)
  : outcome unit * gmap string Logger :=
  (Ret tt,
   <["prefect.extra" := {| handlers := [7]; level := 20; propagate := false |}]> reg).

Definition externals : Externals :=
  {| Settings := string;
     SETTINGS := registry;
     PREFECT_LOGGING_SETTINGS_PATH := fun _ => "/etc/prefect/logging.yml";
     PREFECT_LOGGING_EXTRA_LOGGERS := fun _ => ["uvicorn"];
     DEFAULT_LOGGING_SETTINGS_PATH := "logging.yml";
     yaml_safe_load := flat_yaml;
     configure := wire |}.

(** Surroundings without an override file, in which the default file
    holds [text]. *)
Definition world_with (text : string) (env : gmap string string) : world :=
  {| path_exists := fun _ => false;
     read_text := fun path =>
       if String.eqb path "logging.yml" then Ret text
       else Raise (OSError "No such file or directory");
     environ := env |}.

Definition root_only : gmap string Logger :=
  {[ "root" := {| handlers := []; level := 30; propagate := true |} ]}.

(** A registry in which ['prefect.extra'] has a handler and a level. *)
Definition with_extra : gmap string Logger :=
  <["prefect.extra" := {| handlers := [7]; level := 20; propagate := false |}]>
    (<["sqlalchemy" := {| handlers := [3]; level := 40; propagate := true |}]>
       root_only).

(** Template files of the examples. *)
Definition base_text : string := "version: 1".
Definition level_text : string :=
  "version: 1" +:+ newline +:+ "level: ${LOG_LEVEL}".
Definition extended_text : string :=
  "version: 1" +:+ newline +:+ "level: INFO".
Definition unknown_text : string := "level: ${NO_SUCH_SETTING}".

(** The process after a first call that read [base_text]. *)
Definition after_first : process :=
  snd (setup_logging (E := externals) (world_with base_text ∅) "INFO"
         (initial_process root_only)).
End Example.

(** ** Further example data *)

Module Scenario.
(** Surroundings that differ in a variable the module does not read. *)
Definition home_env : gmap string string := {[ "HOME" := "/root" ]}.

(** Mappings that agree on the one name the template refers to. *)
Definition level_only : gmap string string := {[ "LOG_LEVEL" := "INFO" ]}.
Definition level_and_more : gmap string string :=
  <["API_URL" := "http://localhost"]> level_only.

(** A template whose version differs from the one stored by
    [Example.after_first]. *)
Definition other_version_text : string := "version: 2".

(** The version overridden from the environment. *)
Definition version_env : gmap string string :=
  {[ "PREFECT_LOGGING_VERSION" := "1" ]}.

(** The process after a first call that read [Example.level_text]. *)
Definition first_state : process :=
  snd (setup_logging (E := Example.externals)
         (Example.world_with Example.level_text ∅) "INFO"
         (initial_process Example.root_only)).
End Scenario.

(** * Properties *)

(** Closed well-formedness goals are decided by evaluation. *)
Ltac solve_wf :=
  repeat match goal with
         | |- wf_dict _ => unfold wf_dict
         | |- wf_value _ => simpl
         | |- _ /\ _ => split
         | |- True => exact I
         | |- NoDup _ => apply (bool_decide_unpack _); vm_compute; reflexivity
         end.

(** ** Dictionaries *)

(** Induction on a dictionary that also reaches the dictionaries nested in
    its values. *)
Lemma pydict_nested_ind (P : pydict -> Prop) :
  P [] ->
  (forall k v r, (forall d, v = VDict d -> P d) -> P r -> P ((k, v) :: r)) ->
  forall d, P d.
Proof.
  intros Hnil Hcons d.
  change (match VDict d with VDict d0 => P d0 | _ => True end).
  generalize (VDict d). clear d.
  fix on_value 1. intros [| | | | |d]; try exact I.
  induction d as [|[k v] r IH]; [exact Hnil|].
  apply Hcons; [|exact IH].
  intros d0 Hv. generalize (on_value v). rewrite Hv. exact (fun H => H).
Qed.

(** Induction on a value with the hypothesis for every element of a list
    and every value of a dictionary. *)
Lemma value_nested_ind (P : value -> Prop) :
  P VNone -> (forall b, P (VBool b)) -> (forall n, P (VInt n)) ->
  (forall s, P (VStr s)) ->
  (forall l, Forall P l -> P (VList l)) ->
  (forall d, Forall (fun e : string * value => P (snd e)) d -> P (VDict d)) ->
  forall v, P v.
Proof.
  intros HN HB HI HS HL HD. fix on_value 1.
  intros [|b|n|s|l|d]; [exact HN|apply HB|apply HI|apply HS|apply HL|apply HD].
  - induction l as [|x r IH]; constructor; [apply on_value|exact IH].
  - induction d as [|[k x] r IH]; constructor; [apply on_value|exact IH].
Qed.

Lemma wf_list_cons x l : wf_value (VList (x :: l)) <-> wf_value x /\ wf_value (VList l).
Proof. done. Qed.

Lemma dict_get_absent (d : pydict) k : k ∉ keys d -> dict_get d k = None.
Proof.
  induction d as [|[k' v] r IH]; simpl; [done|].
  intros Hk. apply not_elem_of_cons in Hk as [Hne Hr].
  destruct (String.eqb_spec k k'); [done|]. by apply IH.
Qed.

Lemma dict_get_elem_of (d : pydict) k v :
  NoDup (keys d) -> (k, v) ∈ d -> dict_get d k = Some v.
Proof.
  induction d as [|[k' v'] r IH]; simpl; intros Hnd Hin.
  - by apply elem_of_nil in Hin.
  - apply NoDup_cons in Hnd as [Hk' Hnd].
    apply elem_of_cons in Hin as [Heq|Hin].
    + injection Heq as <- <-. by rewrite String.eqb_refl.
    + destruct (String.eqb_spec k k') as [->|_]; [|by apply IH].
      exfalso. apply Hk'. apply list_elem_of_fmap. by exists (k', v).
Qed.

Lemma dict_get_absent_inv (d : pydict) k v :
  (k, v) ∈ d -> dict_get d k <> None.
Proof.
  induction d as [|[k' v'] r IH]; simpl; intros Hin.
  - by apply elem_of_nil in Hin.
  - destruct (String.eqb_spec k k'); [done|].
    apply elem_of_cons in Hin as [[= -> ->]|Hin]; [done|by apply IH].
Qed.

Lemma dict_get_Some_elem_of (d : pydict) k v :
  dict_get d k = Some v -> (k, v) ∈ d.
Proof.
  induction d as [|[k' v'] r IH]; simpl; [done|].
  destruct (String.eqb_spec k k') as [->|_].
  - intros [= ->]. apply list_elem_of_here.
  - intros H. apply list_elem_of_further. by apply IH.
Qed.

Lemma dict_set_absent (d : pydict) k v :
  k ∉ keys d -> dict_set d k v = d ++ [(k, v)].
Proof.
  induction d as [|[k' v'] r IH]; simpl; [done|].
  intros Hk. apply not_elem_of_cons in Hk as [Hne Hr].
  destruct (String.eqb_spec k k'); [done|]. by rewrite IH.
Qed.

Lemma dict_get_set_eq (d : pydict) k v : dict_get (dict_set d k v) k = Some v.
Proof.
  induction d as [|[k' v'] r IH]; simpl.
  - by rewrite String.eqb_refl.
  - destruct (String.eqb_spec k k') as [->|Hne]; simpl.
    + by rewrite String.eqb_refl.
    + by destruct (String.eqb_spec k k').
Qed.

Lemma dict_set_set (d : pydict) k v v' :
  dict_set (dict_set d k v) k v' = dict_set d k v'.
Proof.
  induction d as [|[k0 v0] r IH]; simpl.
  - by rewrite String.eqb_refl.
  - destruct (String.eqb_spec k k0) as [->|Hne]; simpl.
    + by rewrite String.eqb_refl.
    + destruct (String.eqb_spec k k0); [done|]. by rewrite IH.
Qed.

Lemma keys_cons k v (r : pydict) : keys ((k, v) :: r) = k :: keys r.
Proof. done. Qed.

Lemma elem_of_keys (d : pydict) k v : (k, v) ∈ d -> k ∈ keys d.
Proof. intros H. apply list_elem_of_fmap. by exists (k, v). Qed.

Lemma wf_dict_cons k v r :
  wf_dict ((k, v) :: r) <-> (k ∉ keys r) /\ wf_value v /\ wf_dict r.
Proof.
  unfold wf_dict, keys. simpl. rewrite NoDup_cons. tauto.
Qed.

Lemma wf_dict_nil : wf_dict [].
Proof. split; [constructor|exact I]. Qed.

Lemma wf_dict_NoDup d : wf_dict d -> NoDup (keys d).
Proof. by intros [H _]. Qed.

(** ** Flattening and its inverse *)

Lemma dict_to_flatdict_cons k x r :
  dict_to_flatdict ((k, x) :: r) =
  match x with
  | VDict (e :: d) => under k <$> dict_to_flatdict (e :: d)
  | _ => [([k], x)]
  end ++ dict_to_flatdict r.
Proof. by destruct x as [| | | | |[|e d]]. Qed.

Lemma dict_to_flatdict_leaf k x r :
  is_leaf x -> dict_to_flatdict ((k, x) :: r) = ([k], x) :: dict_to_flatdict r.
Proof. rewrite dict_to_flatdict_cons. by destruct x as [| | | | |[|e d]]. Qed.

(** Every key-path of a flattened dictionary has at least one key, its
    value is a leaf, and a dictionary with a key has such a path. *)
Lemma dict_to_flatdict_paths d :
  Forall (fun e : keypath * value => fst e <> [] /\ is_leaf (snd e))
         (dict_to_flatdict d).
Proof.
  induction d as [|k x r IHx IHr] using pydict_nested_ind; [constructor|].
  rewrite dict_to_flatdict_cons. apply Forall_app. split; [|exact IHr].
  destruct x as [| | | | |[|e d]]; try (by repeat constructor).
  apply Forall_fmap. eapply Forall_impl; [exact (IHx _ eq_refl)|].
  by intros [p v] [_ Hv].
Qed.

Lemma dict_to_flatdict_nonempty d : d <> [] -> dict_to_flatdict d <> [].
Proof.
  induction d as [|k x r IHx IHr] using pydict_nested_ind; [done|].
  intros _. rewrite dict_to_flatdict_cons.
  destruct x as [| | | | |[|e d]]; try done.
  specialize (IHx _ eq_refl).
  destruct (dict_to_flatdict (e :: d)); [by exfalso; apply IHx|done].
Qed.

Lemma insert_item_under k p v A :
  p <> [] ->
  insert_item A (under k (p, v)) =
  dict_set A k (VDict (insert_item (sub_dict A k) (p, v))).
Proof. by destruct p. Qed.

Lemma sub_dict_set A k s : sub_dict (dict_set A k (VDict s)) k = s.
Proof. unfold sub_dict. by rewrite dict_get_set_eq. Qed.

(** Re-nesting a group of items that all start with [k] re-nests their
    tails below [k]. *)
Lemma foldl_insert_under k (f : flatdict) :
  f <> [] -> Forall (fun e : keypath * value => fst e <> []) f ->
  forall A,
    foldl insert_item A (under k <$> f) =
    dict_set A k (VDict (foldl insert_item (sub_dict A k) f)).
Proof.
  induction f as [|[p v] f IH]; [done|]. intros _ Hf A.
  apply Forall_cons in Hf as [Hp Hf]. simpl in Hp.
  rewrite fmap_cons. simpl foldl. rewrite insert_item_under by done.
  destruct f as [|e f]; [done|].
  rewrite IH by done. by rewrite sub_dict_set, dict_set_set.
Qed.

Lemma foldl_insert_flat d :
  wf_dict d ->
  forall A, (forall k, k ∈ keys d -> k ∉ keys A) ->
  foldl insert_item A (dict_to_flatdict d) = A ++ d.
Proof.
  induction d as [|k x r IHx IHr] using pydict_nested_ind.
  - intros _ A _. by rewrite app_nil_r.
  - intros (Hk & Hx & Hr)%wf_dict_cons A HA.
    assert (HkA : k ∉ keys A) by (apply HA; unfold keys; simpl; apply list_elem_of_here).
    rewrite dict_to_flatdict_cons, foldl_app.
    assert (Hentry :
      foldl insert_item A
        match x with
        | VDict (e :: d) => under k <$> dict_to_flatdict (e :: d)
        | _ => [([k], x)]
        end = A ++ [(k, x)]).
    { destruct x as [| | | | |[|e d]];
        try (simpl; unfold insert_item; simpl; by apply dict_set_absent).
      rewrite foldl_insert_under.
      - unfold sub_dict. rewrite dict_get_absent by done.
        rewrite (IHx _ eq_refl Hx []) by (intros; apply not_elem_of_nil).
        by apply dict_set_absent.
      - by apply dict_to_flatdict_nonempty.
      - eapply Forall_impl; [apply dict_to_flatdict_paths|]. by intros ? [? _]. }
    rewrite Hentry, IHr; [by rewrite <- app_assoc|done|].
    intros k' Hk'. unfold keys. rewrite fmap_app. apply not_elem_of_app. split.
    + apply HA. unfold keys. simpl. by apply list_elem_of_further.
    + simpl. intros ->%list_elem_of_singleton. done.
Qed.

Lemma flatdict_roundtrip d :
  wf_dict d -> flatdict_to_dict (dict_to_flatdict d) = d.
Proof.
  intros Hd. unfold flatdict_to_dict.
  rewrite foldl_insert_flat; [done|done|]. intros; apply not_elem_of_nil.
Qed.

(** ** Equality of values *)

Lemma py_eq_dict d d' :
  py_eq (VDict d) (VDict d') =
  Nat.eqb (List.length d) (List.length d') &&
  forallb (fun e : string * value =>
             match dict_get d' (fst e) with
             | Some y => py_eq (snd e) y
             | None => false
             end) d.
Proof.
  simpl. f_equal. induction d as [|[k x] r IH]; simpl; [done|]. by rewrite IH.
Qed.

Lemma py_eq_list_cons x l y l' :
  py_eq (VList (x :: l)) (VList (y :: l')) = py_eq x y && py_eq (VList l) (VList l').
Proof. done. Qed.

(** [x == x] holds for every value of the model. *)
Lemma py_eq_refl v : wf_value v -> py_eq v v = true.
Proof.
  induction v as [|b|n|s|l IH|d IH] using value_nested_ind; intros Hwf.
  - done.
  - simpl. by destruct b.
  - simpl. apply Z.eqb_refl.
  - simpl. apply String.eqb_refl.
  - induction l as [|x r IHr]; [done|].
    apply Forall_cons in IH as [Hx Hr]. apply wf_list_cons in Hwf as [Hwx Hwr].
    rewrite py_eq_list_cons, Hx, IHr; done.
  - rewrite py_eq_dict, Nat.eqb_refl. simpl.
    apply forallb_forall. intros [k x] Hin%list_elem_of_In. simpl.
    rewrite (dict_get_elem_of d k x); [|by apply wf_dict_NoDup|done].
    rewrite Forall_forall in IH. apply (IH (k, x) Hin).
    clear IH. induction d as [|[k' x'] r IHr]; [by apply elem_of_nil in Hin|].
    apply wf_dict_cons in Hwf as (_ & Hx' & Hr).
    apply elem_of_cons in Hin as [[= -> ->]|Hin]; [done|by apply IHr].
Qed.

(** ** Overrides as a walk over the configuration *)

Lemma map_leaves_cons g k x r :
  map_leaves g ((k, x) :: r) =
  (k, match x with
      | VDict (e :: d) => VDict (map_leaves (fun p => g (k :: p)) (e :: d))
      | _ => g [k] x
      end) :: map_leaves g r.
Proof. by destruct x as [| | | | |[|[k1 x1] d]]. Qed.

Lemma map_leaves_keys g d : keys (map_leaves g d) = keys d.
Proof.
  induction d as [|[k x] r IH]; [done|].
  rewrite map_leaves_cons. unfold keys in *. by rewrite !fmap_cons, IH.
Qed.

Lemma dict_to_flatdict_map_leaves d :
  forall g, (forall p v, is_leaf v -> is_leaf (g p v)) ->
  dict_to_flatdict (map_leaves g d) =
  (fun e : keypath * value => (fst e, g (fst e) (snd e))) <$> dict_to_flatdict d.
Proof.
  induction d as [|k x r IHx IHr] using pydict_nested_ind; intros g Hg; [done|].
  rewrite map_leaves_cons, !dict_to_flatdict_cons, fmap_app, IHr by done.
  f_equal. destruct x as [| | | | |[|[k1 x1] d]];
    try (match goal with
         | |- context [g [k] ?x] =>
             pose proof (Hg [k] x I) as Hleaf; simpl;
             by destruct (g [k] x) as [| | | | |[|? ?]]
         end).
  specialize (IHx _ eq_refl (fun p => g (k :: p)) (fun p => Hg (k :: p))).
  rewrite map_leaves_cons in IHx |- *. rewrite IHx.
  rewrite <- !list_fmap_compose. by apply list_fmap_ext.
Qed.

Lemma wf_map_leaves d :
  forall g, (forall p v, wf_value v -> wf_value (g p v)) ->
  wf_dict d -> wf_dict (map_leaves g d).
Proof.
  induction d as [|k x r IHx IHr] using pydict_nested_ind; intros g Hg; [done|].
  intros (Hk & Hx & Hr)%wf_dict_cons. rewrite map_leaves_cons.
  apply wf_dict_cons. rewrite map_leaves_keys. split; [done|]. split; [|by apply IHr].
  destruct x as [| | | | |[|e d]]; try by apply Hg.
  apply (IHx _ eq_refl (fun p => g (k :: p))); [|done]. intros; by apply Hg.
Qed.

Lemma env_override_leaf env p v : is_leaf v -> is_leaf (env_override env p v).
Proof.
  unfold env_override. destruct (env !! envvar_name p) as [s|]; [|done].
  by destruct (String.eqb s EmptyString).
Qed.

Lemma env_override_wf env p v : wf_value v -> wf_value (env_override env p v).
Proof.
  unfold env_override. destruct (env !! envvar_name p) as [s|]; [|done].
  by destruct (String.eqb s EmptyString).
Qed.

(** Flatten, assign and re-nest is the walk that overrides each leaf in
    place. *)
Lemma apply_env_overrides_walk env config :
  wf_dict config ->
  apply_env_overrides env config = map_leaves (env_override env) config.
Proof.
  intros Hwf. unfold apply_env_overrides.
  rewrite <- dict_to_flatdict_map_leaves by apply env_override_leaf.
  apply flatdict_roundtrip, wf_map_leaves; [apply env_override_wf|done].
Qed.

Lemma wf_apply_env_overrides env config :
  wf_dict config -> wf_dict (apply_env_overrides env config).
Proof.
  intros Hwf. rewrite apply_env_overrides_walk by done.
  apply wf_map_leaves; [apply env_override_wf|done].
Qed.

Lemma apply_env_overrides_keys env config :
  wf_dict config -> keys (apply_env_overrides env config) = keys config.
Proof.
  intros Hwf. rewrite apply_env_overrides_walk by done. apply map_leaves_keys.
Qed.

(** ** Environment variable names *)

Lemma append_cons c (x y : string) : String c x +:+ y = String c (x +:+ y).
Proof. reflexivity. Qed.

Lemma append_nil_l (y : string) : EmptyString +:+ y = y.
Proof. reflexivity. Qed.

Lemma append_nil_r (x : string) : x +:+ EmptyString = x.
Proof. induction x as [|c x IH]; [done|]. by rewrite append_cons, IH. Qed.

Lemma append_assoc (x y z : string) : (x +:+ y) +:+ z = x +:+ (y +:+ z).
Proof. induction x as [|c x IH]; [done|]. by rewrite !append_cons, IH. Qed.

Lemma concat_empty_cons x l :
  String.concat EmptyString (x :: l) = x +:+ String.concat EmptyString l.
Proof. destruct l as [|y l]; simpl; [by rewrite append_nil_r|done]. Qed.

Lemma is_alnum_in_class c : is_alnum c = in_class c.
Proof. destruct c as [[] [] [] [] [] [] [] []]; vm_compute; reflexivity. Qed.

(** The left-to-right substitution agrees with the cut into runs; after a
    replaced character the rest of its run is skipped. *)
Lemma sub_non_alnum_runs s :
  sub_non_alnum false s = String.concat EmptyString (render_run <$> runs s) /\
  sub_non_alnum true s =
    String.concat EmptyString (render_run <$>
      match runs s with
      | (false, _) :: gs => gs
      | gs => gs
      end).
Proof.
  induction s as [|c r [IHf IHt]]; [done|].
  simpl. rewrite <- !is_alnum_in_class. destruct (is_alnum c) eqn:Hc.
  - rewrite IHf. destruct (runs r) as [|[[] g] gs]; simpl Bool.eqb; cbv iota;
      rewrite ?fmap_cons, ?concat_empty_cons; done.
  - rewrite IHt. destruct (runs r) as [|[[] g] gs]; simpl Bool.eqb; cbv iota;
      rewrite ?fmap_cons, ?concat_empty_cons; done.
Qed.

Lemma to_envvar_replace_runs s : to_envvar s = replace_runs s.
Proof. apply sub_non_alnum_runs. Qed.

(** [runs] really cuts the text into its maximal runs: the runs put
    together give the text back, no run is empty, a run lies entirely
    inside or entirely outside the class, and neighbours differ. *)
Lemma runs_cons c r :
  runs (String c r) =
  match runs r with
  | (b, g) :: gs =>
      if Bool.eqb (in_class c) b then (b, String c g) :: gs
      else (in_class c, String c EmptyString) :: (b, g) :: gs
  | [] => [(in_class c, String c EmptyString)]
  end.
Proof. done. Qed.

Lemma runs_concat s : String.concat EmptyString (snd <$> runs s) = s.
Proof.
  induction s as [|c r IH]; [done|]. rewrite runs_cons.
  destruct (runs r) as [|[b g] gs]; [simpl in *; by subst r|].
  rewrite fmap_cons, concat_empty_cons in IH. simpl in IH.
  destruct (Bool.eqb (in_class c) b);
    rewrite !fmap_cons, !concat_empty_cons; simpl;
    rewrite ?append_cons, ?append_nil_l; by rewrite ?fmap_cons, ?concat_empty_cons, IH.
Qed.

Lemma runs_uniform s :
  Forall (fun g : bool * string =>
            snd g <> EmptyString /\
            forallb (fun c => Bool.eqb (in_class c) (fst g))
                    (list_ascii_of_string (snd g)) = true) (runs s).
Proof.
  induction s as [|c r IH]; [constructor|]. rewrite runs_cons.
  destruct (runs r) as [|[b g] gs].
  - repeat constructor; simpl; [done|]. by rewrite Bool.eqb_reflx.
  - apply Forall_cons in IH as [[Hg Hall] IH]. simpl in Hg, Hall.
    destruct (Bool.eqb (in_class c) b) eqn:Hb.
    + constructor; [|done]. simpl. by rewrite Hb, Hall.
    + constructor; [|by constructor]. simpl. by rewrite Bool.eqb_reflx.
Qed.

Lemma runs_alternating s : alternating (runs s).
Proof.
  induction s as [|c r IH]; [done|]. rewrite runs_cons.
  destruct (runs r) as [|[b g] gs]; [done|].
  destruct (Bool.eqb (in_class c) b) eqn:Hb; [done|].
  split; [|done]. simpl. intros Heq. by rewrite Heq, Bool.eqb_reflx in Hb.
Qed.

Lemma upper_char_env c : is_alnum c = true -> is_env_char (upper_char c) = true.
Proof.
  destruct c as [[] [] [] [] [] [] [] []]; vm_compute; congruence.
Qed.

Lemma upper_sub_non_alnum_chars b s :
  forallb is_env_char (list_ascii_of_string (upper (sub_non_alnum b s))) = true.
Proof.
  revert b. induction s as [|c r IH]; intros b; [done|].
  simpl. destruct (is_alnum c) eqn:Hc.
  - simpl. by rewrite upper_char_env, IH.
  - destruct b; [apply IH|]. simpl. apply IH.
Qed.

(** ** Claims on flattening, names and overrides *)

(** C4: for every structured configuration [C] (nested mappings, scalars
    and lists kept as opaque leaves; keys distinct in every mapping, as in
    any Python [dict]), [flatdict_to_dict (dict_to_flatdict C)] is [C]
    itself, hence equal to it under [==]; the empty mapping is sent to the
    empty mapping in both directions. *)
Theorem flatten_unflatten_roundtrip :
  dict_to_flatdict [] = [] /\ flatdict_to_dict [] = [] /\
  forall C : pydict,
    wf_dict C ->
    flatdict_to_dict (dict_to_flatdict C) = C /\
    py_eq (VDict (flatdict_to_dict (dict_to_flatdict C))) (VDict C) = true.
Proof.
  split; [done|]. split; [done|]. intros C HC.
  rewrite flatdict_roundtrip by done. split; [done|]. by apply py_eq_refl.
Qed.

Lemma flatten_unflatten_roundtrip_witness :
  wf_dict Example.mixed_config /\
  flatdict_to_dict (dict_to_flatdict Example.mixed_config) = Example.mixed_config.
Proof.
  assert (Hwf : wf_dict Example.mixed_config) by solve_wf.
  split; [exact Hwf|].
  exact (proj1 (proj2 (proj2 flatten_unflatten_roundtrip) _ Hwf)).
Defined.

Lemma upper_char_translate c :
  upper_char c = translate c lower_letters upper_letters.
Proof. destruct c as [[] [] [] [] [] [] [] []]; vm_compute; reflexivity. Qed.

Lemma upper_upper_case s : upper s = upper_case s.
Proof.
  induction s as [|c r IH]; [done|]. simpl. by rewrite IH, upper_char_translate.
Qed.

(** The code never asks for the name of the empty key-path (a flattened
    key has at least one part); there its expression keeps the
    underscore that ends the literal. *)
Lemma envvar_name_empty_key_path : envvar_name [] = "PREFECT_LOGGING_".
Proof. reflexivity. Qed.

(** C5: for every prefix and every key-path, the expression of lines 52-55
    (the prefix with its underscore, then the keys joined by ["_"],
    through [to_envvar] and [upper]) gives the text obtained by joining
    prefix and keys with ["_"], replacing every maximal run of characters
    outside [[0-9a-zA-Z]] by one ["_"] and turning each letter [a]-[z]
    into its capital; the name the code looks up is the case of the
    prefix [PREFECT_LOGGING]; the name consists of capital letters,
    digits and ["_"] only; for [handlers], [console], [level] it is
    [PREFECT_LOGGING_HANDLERS_CONSOLE_LEVEL], and a key with dots,
    blanks, digits and capitals is treated as the second example shows.
    The name is a function of prefix and key-path. *)
Theorem envvar_name_derivation :
  (forall (prefix key : string) (rest : keypath),
     upper (to_envvar ((prefix +:+ "_") +:+ String.concat "_" (key :: rest)))
       = derive_env_name prefix (key :: rest)) /\
  (forall (key : string) (rest : keypath),
     envvar_name (key :: rest)
       = derive_env_name "PREFECT_LOGGING" (key :: rest)) /\
  (forall key_tup : keypath,
     forallb is_env_char (list_ascii_of_string (envvar_name key_tup)) = true) /\
  envvar_name ["handlers"; "console"; "level"]
    = "PREFECT_LOGGING_HANDLERS_CONSOLE_LEVEL" /\
  envvar_name ["loggers"; "prefect.flow_runs"; "Level-2 (x)"]
    = "PREFECT_LOGGING_LOGGERS_PREFECT_FLOW_RUNS_LEVEL_2_X_".
Proof.
  assert (Hgen : forall (prefix key : string) (rest : keypath),
    upper (to_envvar ((prefix +:+ "_") +:+ String.concat "_" (key :: rest)))
      = derive_env_name prefix (key :: rest)).
  { intros prefix key rest. unfold derive_env_name.
    rewrite upper_upper_case, to_envvar_replace_runs. do 2 f_equal.
    apply append_assoc. }
  split; [exact Hgen|]. split; [|split].
  - intros key rest. exact (Hgen "PREFECT_LOGGING" key rest).
  - intros key_tup. apply upper_sub_non_alnum_chars.
  - split; vm_compute; reflexivity.
Qed.

Lemma flat_overrides env config :
  wf_dict config ->
  dict_to_flatdict (apply_env_overrides env config) =
  (fun e : keypath * value => (fst e, env_override env (fst e) (snd e)))
    <$> dict_to_flatdict config.
Proof.
  intros Hwf. rewrite apply_env_overrides_walk by done.
  apply dict_to_flatdict_map_leaves, env_override_leaf.
Qed.

(** C7: for every structured configuration, the flattened result of the
    overrides has the key-paths of the flattened configuration, in the
    same positions; at a key-path whose variable is set to a non-empty
    text the value is that text as a string, whatever the value was; at a
    key-path whose variable is unset or empty the value is unchanged. *)
Theorem apply_env_overrides_spec (env : gmap string string) (config : pydict) :
  wf_dict config ->
  (dict_to_flatdict (apply_env_overrides env config)).*1 =
    (dict_to_flatdict config).*1 /\
  forall (i : nat) (key_tup : keypath) (val : value),
    dict_to_flatdict config !! i = Some (key_tup, val) ->
    (forall env_val, env !! envvar_name key_tup = Some env_val ->
       env_val <> EmptyString ->
       dict_to_flatdict (apply_env_overrides env config) !! i
         = Some (key_tup, VStr env_val)) /\
    (env !! envvar_name key_tup = None \/
     env !! envvar_name key_tup = Some EmptyString ->
       dict_to_flatdict (apply_env_overrides env config) !! i
         = Some (key_tup, val)).
Proof.
  intros Hwf. rewrite flat_overrides by done. split.
  - rewrite <- list_fmap_compose. by apply list_fmap_ext.
  - intros i key_tup val Hi. rewrite list_lookup_fmap, Hi. simpl.
    unfold env_override. split.
    + intros env_val -> Hne. by destruct (String.eqb_spec env_val EmptyString).
    + by intros [-> | ->].
Qed.

Lemma apply_env_overrides_spec_witness :
  wf_dict Example.console_config /\
  dict_to_flatdict (apply_env_overrides Example.debug_env Example.console_config)
    !! 0 = Some (["handlers"; "console"; "level"], VStr "DEBUG") /\
  dict_to_flatdict (apply_env_overrides ∅ Example.console_config)
    !! 0 = Some (["handlers"; "console"; "level"], VStr "INFO").
Proof.
  assert (Hwf : wf_dict Example.console_config) by solve_wf.
  pose proof (apply_env_overrides_spec Example.debug_env _ Hwf) as [_ Hset].
  pose proof (apply_env_overrides_spec ∅ _ Hwf) as [_ Hunset].
  specialize (Hset 0 ["handlers"; "console"; "level"] (VStr "INFO") eq_refl)
    as [Hset _].
  specialize (Hunset 0 ["handlers"; "console"; "level"] (VStr "INFO") eq_refl)
    as [_ Hunset].
  split; [exact Hwf|]. split.
  - apply (Hset "DEBUG"); [vm_compute; reflexivity|discriminate].
  - apply Hunset. left. vm_compute. reflexivity.
Defined.

(** ** Template substitution *)

Lemma obind_raise {A B} (x : outcome A) (f : A -> outcome B) e :
  x = Raise e -> obind x f = Raise e.
Proof. by intros ->. Qed.

(** A template that refers to a name missing from the mapping is
    rejected, whatever else it contains. *)
Lemma template_scan_missing mapping s :
  forall st,
    (exists id, id ∈ template_names st s /\ mapping !! id = None) ->
    exists e, template_scan mapping st s = Raise e /\ template_error mapping e.
Proof.
  assert (Hinv : exists e, @invalid_placeholder string = Raise e /\
                           template_error mapping e)
    by (eexists; split; [reflexivity|by left]).
  assert (Hlook : forall id (k : string -> outcome string),
             (mapping !! id = None \/
              exists e, (forall v, k v = Raise e) /\ template_error mapping e) ->
             exists e, obind (subst_lookup mapping id) k = Raise e /\
                       template_error mapping e).
  { intros id k [Hid|(e & Hk & He)]; unfold subst_lookup.
    - rewrite Hid. eexists; split; [reflexivity|right; eauto].
    - destruct (mapping !! id) as [v|] eqn:Hid; simpl.
      + exists e. by rewrite Hk.
      + eexists; split; [reflexivity|right; eauto]. }
  induction s as [|c r IH]; intros st (id & Hin & Hid).
  - destruct st; simpl in *; try by apply elem_of_nil in Hin.
    apply list_elem_of_singleton in Hin as ->.
    unfold subst_lookup. rewrite Hid. eexists; split; [reflexivity|right; eauto].
  - assert (Hresume :
      (exists id, id ∈ (if Ascii.eqb c "$"%char then template_names TDelim r
                        else template_names TText r) /\ mapping !! id = None) ->
      exists e, (if Ascii.eqb c "$"%char then template_scan mapping TDelim r
                 else do rest <- template_scan mapping TText r;
                      Ret (String c rest)) = Raise e /\ template_error mapping e).
    { intros H. destruct (Ascii.eqb c "$"%char); [by apply IH|].
      destruct (IH TText H) as (e & -> & He). by exists e. }
    destruct st as [| |id0| |id0]; simpl in Hin |- *.
    + by apply Hresume; eauto.
    + destruct (Ascii.eqb c "$"%char) eqn:Hd.
      * destruct (IH TText) as (e & -> & He); eauto.
      * destruct (is_id_start c); [apply IH; eauto|].
        destruct (Ascii.eqb c "{"%char); [apply IH; eauto|apply Hinv].
    + destruct (is_id_char c); [apply IH; eauto|].
      apply Hlook. apply elem_of_cons in Hin as [->|Hin]; [by left|].
      right. destruct Hresume as (e & He & Hte); [eauto|].
      exists e. split; [|done]. intros v. by rewrite He.
    + destruct (is_id_start c); [apply IH; eauto|apply Hinv].
    + destruct (is_id_char c); [apply IH; eauto|].
      destruct (Ascii.eqb c "}"%char); [|apply Hinv].
      apply Hlook. apply elem_of_cons in Hin as [->|Hin]; [by left|].
      right. destruct (IH TText) as (e & He & Hte); [eauto|].
      exists e. split; [|done]. intros v. by rewrite He.
Qed.

Lemma substitute_missing text mapping id :
  id ∈ placeholders text -> mapping !! id = None ->
  exists e, substitute text mapping = Raise e /\ template_error mapping e.
Proof. intros. apply template_scan_missing. eauto. Qed.

Lemma substitute_log_level mapping v :
  mapping !! "LOG_LEVEL" = Some v ->
  substitute "level: ${LOG_LEVEL}" mapping = Ret ("level: " +:+ v).
Proof.
  intros Hv.
  assert (Hl : subst_lookup mapping "LOG_LEVEL" = Ret v)
    by (unfold subst_lookup; by rewrite Hv).
  unfold substitute. cbv -[subst_lookup]. rewrite Hl.
  change (Ret ("level: " +:+ (v +:+ EmptyString)) = Ret ("level: " +:+ v)).
  by rewrite append_nil_r.
Qed.

(** ** The settings registry as a substitution *)

Section Registry.
Context `{E : Externals}.

Lemma foldl_mapping_lookup (settings : Settings) (l : list (Setting Settings)) :
  forall (m : gmap string string) id,
    id ∉ name <$> l ->
    foldl (fun m setting => <[name setting := value_from setting settings]> m)
          m l !! id = m !! id.
Proof.
  induction l as [|a l IH]; intros m id Hid; [done|].
  rewrite fmap_cons in Hid. apply not_elem_of_cons in Hid as [Hne Hid].
  simpl. rewrite IH by done. by rewrite lookup_insert_ne.
Qed.

Lemma template_mapping_missing settings id :
  id ∉ name <$> SETTINGS -> template_mapping settings !! id = None.
Proof.
  intros Hid. unfold template_mapping. by rewrite foldl_mapping_lookup.
Qed.

Lemma template_mapping_lookup settings setting :
  NoDup (name <$> SETTINGS) -> setting ∈ SETTINGS ->
  template_mapping settings !! name setting
    = Some (value_from setting settings).
Proof.
  unfold template_mapping. generalize (∅ : gmap string string).
  induction SETTINGS as [|a l IH]; intros m Hnd Hin.
  - by apply elem_of_nil in Hin.
  - rewrite fmap_cons in Hnd. apply NoDup_cons in Hnd as [Ha Hnd].
    apply elem_of_cons in Hin as [->|Hin]; simpl.
    + rewrite foldl_mapping_lookup by done. apply lookup_insert_eq.
    + by apply IH.
Qed.
End Registry.

(** ** The one-time gate *)

Lemma config_diff_items stored config diff :
  config_diff stored config = Ret diff -> diff ⊆ config.
Proof.
  revert diff. induction config as [|[key val] rest IH]; simpl; intros diff.
  - by intros [= <-].
  - destruct (dict_get stored key) as [old|]; [|done].
    destruct (config_diff stored rest) as [d|e]; [|done]. simpl.
    intros [= <-]. specialize (IH d eq_refl). intros x Hx.
    destruct (negb (py_eq old val)).
    + apply elem_of_cons in Hx as [->|Hx]; [apply list_elem_of_here|].
      by apply list_elem_of_further, IH.
    + by apply list_elem_of_further, IH.
Qed.

Lemma config_diff_missing stored config :
  (exists key, (key ∈ keys config) /\ (key ∉ keys stored)) ->
  exists key, (key ∈ keys config) /\ (key ∉ keys stored) /\
              config_diff stored config = Raise (KeyError key).
Proof.
  induction config as [|[key val] rest IH]; intros (k & Hk & Hmissing).
  - by apply elem_of_nil in Hk.
  - rewrite keys_cons in Hk. simpl config_diff.
    destruct (dict_get stored key) as [old|] eqn:Hget.
    + destruct IH as (k' & Hk' & Hm' & ->).
      * exists k. split; [|done].
        apply elem_of_cons in Hk as [->|Hk]; [|done].
        exfalso. apply Hmissing. apply dict_get_Some_elem_of in Hget.
        by eapply elem_of_keys.
      * exists k'. split; [|done]. rewrite keys_cons.
        by apply list_elem_of_further.
    + exists key. split; [rewrite keys_cons; apply list_elem_of_here|].
      split; [|done]. clear -Hget.
      induction stored as [|[k1 v1] r IHr]; [apply not_elem_of_nil|].
      simpl in Hget. destruct (String.eqb_spec key k1); [done|].
      rewrite keys_cons. apply not_elem_of_cons. split; [done|by apply IHr].
Qed.

(** An identical configuration shows no difference. *)
Lemma config_diff_same config : wf_dict config -> config_diff config config = Ret [].
Proof.
  intros Hwf.
  assert (Hsub : forall part, part ⊆ config -> config_diff config part = Ret []).
  { induction part as [|[key val] rest IH]; intros Hsub; [done|]. simpl.
    assert (Hin : (key, val) ∈ config) by apply Hsub, list_elem_of_here.
    rewrite (dict_get_elem_of config key val); [|by apply wf_dict_NoDup|done].
    rewrite IH by (intros x Hx; by apply Hsub, list_elem_of_further).
    simpl. rewrite py_eq_refl; [done|].
    clear -Hwf Hin. induction config as [|[k x] r IHr]; [by apply elem_of_nil in Hin|].
    apply wf_dict_cons in Hwf as (_ & Hx & Hr).
    apply elem_of_cons in Hin as [[= -> ->]|Hin]; [done|by apply IHr]. }
  by apply Hsub.
Qed.

Lemma dictConfig_calls_app t1 t2 :
  dictConfig_calls (t1 ++ t2) = dictConfig_calls t1 ++ dictConfig_calls t2.
Proof. apply omap_app. Qed.

Lemma warnings_app t1 t2 : warnings (t1 ++ t2) = warnings t1 ++ warnings t2.
Proof. apply omap_app. Qed.

Section Gate.
Context `{E : Externals}.
Implicit Types (w : world) (settings : Settings) (st : process).

Lemma setup_logging_load_raise w settings st e :
  load_logging_config w (logging_path w settings) settings = Raise e ->
  setup_logging w settings st = (Raise e, st).
Proof. unfold setup_logging. by intros ->. Qed.

Lemma dictConfig_effect config st :
  trace (dictConfig config st).2 = trace st ++ [DictConfig config] /\
  PROCESS_LOGGING_CONFIG (dictConfig config st).2 = PROCESS_LOGGING_CONFIG st.
Proof.
  unfold dictConfig. destruct (dict_get config "version") as [v|]; [|done].
  destruct (py_eq v (VInt 1)); [|done].
  by destruct (configure config (loggers (emit (DictConfig config) st))).
Qed.

Lemma dictConfig_accepts config st u st1 :
  dictConfig config st = (Ret u, st1) -> config <> [].
Proof.
  unfold dictConfig. intros H ->. simpl in H. discriminate H.
Qed.

(** In the set state a call changes nothing but the warnings given. *)
Lemma setup_logging_set w settings st stored :
  PROCESS_LOGGING_CONFIG st = Some stored -> stored <> [] ->
  let st' := (setup_logging w settings st).2 in
  PROCESS_LOGGING_CONFIG st' = Some stored /\
  loggers st' = loggers st /\
  dictConfig_calls (trace st') = dictConfig_calls (trace st).
Proof.
  intros Hst Hne. unfold setup_logging. rewrite Hst.
  destruct (load_logging_config _ _ _) as [config|e]; [|done].
  destruct stored as [|s0 stored]; [done|]. simpl truthy. cbv iota.
  destruct (config_diff _ config) as [[|d ds]|e]; simpl; try done.
  rewrite Hst. split; [done|]. split; [done|].
  by rewrite dictConfig_calls_app, app_nil_r.
Qed.

(** In the unset state a call that returns has stored what it loaded,
    after one call of [dictConfig] with it. *)
Lemma setup_logging_unset w settings st st1 :
  PROCESS_LOGGING_CONFIG st = None ->
  setup_logging w settings st = (Ret tt, st1) ->
  exists config,
    load_logging_config w (logging_path w settings) settings = Ret config /\
    config <> [] /\
    trace st1 = trace st ++ [DictConfig config] /\
    PROCESS_LOGGING_CONFIG st1 = Some config.
Proof.
  intros Hst. unfold setup_logging. rewrite Hst.
  destruct (load_logging_config _ _ _) as [config|e]; [|done].
  simpl truthy. cbv iota.
  pose proof (dictConfig_effect config st) as [Htrace _].
  destruct (dictConfig config st) as [[u|e] st0] eqn:Hdc; [|done].
  intros [= <-]. exists config. split; [done|].
  split; [by eapply dictConfig_accepts|]. by split.
Qed.

(** The test of line 79 is on truthiness: had an empty dictionary been
    stored, a call would take the branch of the unset state and call
    [dictConfig] again.  [dictConfig] refuses the empty dictionary, so no
    call stores it ([setup_logging_stored_nonempty] below). *)
Lemma setup_logging_empty_stored w settings st config :
  PROCESS_LOGGING_CONFIG st = Some [] ->
  load_logging_config w (logging_path w settings) settings = Ret config ->
  trace (setup_logging w settings st).2 = trace st ++ [DictConfig config].
Proof.
  intros Hst Hload. unfold setup_logging. rewrite Hload, Hst.
  simpl truthy. cbv iota.
  pose proof (dictConfig_effect config st) as [Htrace _].
  by destruct (dictConfig config st) as [[u|e] st0].
Qed.

(** In the unset state a call that raises leaves the state unset. *)
Lemma setup_logging_unset_raise w settings st e st1 :
  PROCESS_LOGGING_CONFIG st = None ->
  setup_logging w settings st = (Raise e, st1) ->
  PROCESS_LOGGING_CONFIG st1 = None.
Proof.
  intros Hst. unfold setup_logging. rewrite Hst.
  destruct (load_logging_config _ _ _) as [config|e']; [|by intros [= _ <-]].
  simpl truthy. cbv iota.
  pose proof (dictConfig_effect config st) as [_ Hcfg].
  destruct (dictConfig config st) as [[u|e'] st0]; [done|].
  intros [= _ <-]. simpl in Hcfg. by rewrite Hcfg.
Qed.

Lemma setup_logging_stored_nonempty w settings st :
  stored_nonempty st -> stored_nonempty (setup_logging w settings st).2.
Proof.
  intros Hgood. destruct (PROCESS_LOGGING_CONFIG st) as [stored|] eqn:Hst.
  - pose proof (setup_logging_set w settings st stored Hst (Hgood _ Hst))
      as [Hcfg _].
    intros config. simpl in Hcfg. rewrite Hcfg. intros [= <-]. by apply Hgood.
  - destruct (setup_logging w settings st) as [[[]|e] st1] eqn:Hstep.
    + destruct (setup_logging_unset _ _ _ _ Hst Hstep) as (c & _ & Hne & _ & Hc).
      intros config. simpl. rewrite Hc. by intros [= <-].
    + intros config. simpl.
      by rewrite (setup_logging_unset_raise _ _ _ _ _ Hst Hstep).
Qed.

Lemma run_snoc calls c st :
  run (calls ++ [c]) st = (setup_logging c.1 c.2 (run calls st)).2.
Proof. unfold run. by rewrite foldl_app. Qed.

Lemma run_app calls more st : run (calls ++ more) st = run more (run calls st).
Proof. unfold run. by rewrite foldl_app. Qed.

Lemma run_stored_nonempty calls st :
  stored_nonempty st -> stored_nonempty (run calls st).
Proof.
  induction calls as [|c calls IH] using rev_ind; [done|].
  intros Hgood. rewrite run_snoc. by apply setup_logging_stored_nonempty, IH.
Qed.

Lemma run_set calls st stored :
  PROCESS_LOGGING_CONFIG st = Some stored -> stored <> [] ->
  PROCESS_LOGGING_CONFIG (run calls st) = Some stored /\
  dictConfig_calls (trace (run calls st)) = dictConfig_calls (trace st).
Proof.
  intros Hst Hne. induction calls as [|c calls [IHc IHt]] using rev_ind; [done|].
  rewrite run_snoc.
  pose proof (setup_logging_set c.1 c.2 _ stored IHc Hne) as (Hc & _ & Ht).
  simpl in Hc, Ht. by rewrite Hc, Ht.
Qed.
End Gate.

(** ** Claims on resolution and the gate *)

Section GateClaims.
Context `{E : Externals}.
Implicit Types (w : world) (settings : Settings) (st : process).

(** C1: from the unset state, a call of [setup_logging] that returns
    has called [dictConfig] exactly once, with the configuration it
    resolved, and has stored that configuration; from then on, whatever
    calls follow and whatever they resolve, return or raise,
    [dictConfig] is not called again and the stored configuration stays. *)
Theorem setup_logging_gate w settings st st1 :
  PROCESS_LOGGING_CONFIG st = None ->
  setup_logging w settings st = (Ret tt, st1) ->
  exists config,
    load_logging_config w (logging_path w settings) settings = Ret config /\
    dictConfig_calls (trace st1) = dictConfig_calls (trace st) ++ [config] /\
    PROCESS_LOGGING_CONFIG st1 = Some config /\
    forall calls : list (world * Settings),
      dictConfig_calls (trace (run calls st1))
        = dictConfig_calls (trace st) ++ [config] /\
      PROCESS_LOGGING_CONFIG (run calls st1) = Some config.
Proof.
  intros Hst Hstep.
  destruct (setup_logging_unset _ _ _ _ Hst Hstep)
    as (config & Hload & Hne & Htrace & Hcfg).
  exists config. split; [done|].
  assert (Hcalls : dictConfig_calls (trace st1)
                   = dictConfig_calls (trace st) ++ [config])
    by (by rewrite Htrace, dictConfig_calls_app).
  split; [done|]. split; [done|]. intros calls.
  destruct (run_set calls st1 config Hcfg Hne) as [Hc Ht].
  by rewrite Ht, Hcalls.
Qed.

(** C3: in every run of the process, once [PROCESS_LOGGING_CONFIG] holds
    a configuration it holds the same one after any further calls; it
    was stored by the first call that returned, which found the global
    unset and resolved that configuration. *)
Theorem process_config_set_once reg (calls : list (world * Settings)) config :
  PROCESS_LOGGING_CONFIG (run calls (initial_process reg)) = Some config ->
  (forall more,
     PROCESS_LOGGING_CONFIG (run (calls ++ more) (initial_process reg))
       = Some config) /\
  exists before w settings after st1,
    calls = before ++ (w, settings) :: after /\
    PROCESS_LOGGING_CONFIG (run before (initial_process reg)) = None /\
    setup_logging w settings (run before (initial_process reg)) = (Ret tt, st1) /\
    load_logging_config w (logging_path w settings) settings = Ret config.
Proof.
  intros Hcfg.
  assert (Hgood : stored_nonempty (run calls (initial_process reg)))
    by (by apply run_stored_nonempty).
  split.
  { intros more. rewrite run_app. by apply run_set; [|apply Hgood]. }
  clear Hgood. revert config Hcfg.
  induction calls as [|[w settings] calls IH] using rev_ind; intros config Hcfg.
  { done. }
  rewrite run_snoc in Hcfg. simpl in Hcfg.
  destruct (PROCESS_LOGGING_CONFIG (run calls (initial_process reg)))
    as [stored|] eqn:Hprev.
  - assert (Hne : stored <> [])
      by (by eapply (run_stored_nonempty calls (initial_process reg))).
    destruct (setup_logging_set w settings _ stored Hprev Hne) as [Hsame _].
    simpl in Hsame. rewrite Hsame in Hcfg. injection Hcfg as <-.
    destruct (IH stored eq_refl) as (before & w0 & s0 & after & st1 & -> & H).
    exists before, w0, s0, (after ++ [(w, settings)]), st1.
    split; [|done]. by rewrite <- app_assoc.
  - destruct (setup_logging w settings (run calls (initial_process reg)))
      as [[[]|e] st1] eqn:Hstep.
    + destruct (setup_logging_unset _ _ _ _ Hprev Hstep)
        as (c & Hload & _ & _ & Hc).
      simpl in Hcfg. rewrite Hc in Hcfg. injection Hcfg as <-.
      by exists calls, w, settings, [], st1.
    + simpl in Hcfg.
      by rewrite (setup_logging_unset_raise _ _ _ _ _ Hprev Hstep) in Hcfg.
Qed.

(** C6: when the template text refers to a name that no registered
    setting has, substitution raises ([KeyError] for the name, or
    [ValueError] when an ill-formed placeholder comes first), the
    exception passes through [load_logging_config] and [setup_logging],
    and the process state is what it was. *)
Theorem unregistered_placeholder_aborts w settings st text id :
  read_text w (logging_path w settings) = Ret text ->
  id ∈ placeholders text ->
  id ∉ name <$> SETTINGS ->
  exists e,
    template_error (template_mapping settings) e /\
    resolve_template text settings = Raise e /\
    load_logging_config w (logging_path w settings) settings = Raise e /\
    setup_logging w settings st = (Raise e, st).
Proof.
  intros Hread Hid Hmissing.
  destruct (substitute_missing text (template_mapping settings) id Hid)
    as (e & Hsub & He); [by apply template_mapping_missing|].
  exists e. split; [done|].
  assert (Hres : resolve_template text settings = Raise e)
    by (unfold resolve_template; by rewrite Hsub).
  split; [done|].
  assert (Hload : load_logging_config w (logging_path w settings) settings
                  = Raise e)
    by (unfold load_logging_config; rewrite Hread; simpl; by rewrite Hres).
  split; [done|]. by apply setup_logging_load_raise.
Qed.

(** C8: with a registry whose setting [LOG_LEVEL] has the value [INFO],
    the template [level: ${LOG_LEVEL}] is interpolated to [level: INFO],
    and the resolver returns what the YAML loader makes of that text,
    the mapping [{level: "INFO"}]. *)
Theorem resolve_log_level settings setting :
  NoDup (name <$> SETTINGS) ->
  setting ∈ SETTINGS ->
  name setting = "LOG_LEVEL" ->
  value_from setting settings = "INFO" ->
  yaml_safe_load "level: INFO" = Ret (VDict [("level", VStr "INFO")]) ->
  substitute "level: ${LOG_LEVEL}" (template_mapping settings)
    = Ret "level: INFO" /\
  resolve_template "level: ${LOG_LEVEL}" settings
    = Ret (VDict [("level", VStr "INFO")]).
Proof.
  intros Hnd Hin Hname Hvalue Hyaml.
  pose proof (template_mapping_lookup settings setting Hnd Hin) as Hlook.
  rewrite Hname, Hvalue in Hlook.
  pose proof (substitute_log_level _ _ Hlook) as Hsub.
  split; [exact Hsub|]. unfold resolve_template. rewrite Hsub. exact Hyaml.
Qed.

(** C9: in the set state, a call whose resolved configuration has a
    top-level key that the stored configuration lacks raises [KeyError]
    for such a key out of [setup_logging], the state unchanged; and the
    difference that is computed holds items of the new configuration
    only, so a key that only the stored configuration has is never
    reported. *)
Theorem drift_check_raises_KeyError w settings st stored config :
  PROCESS_LOGGING_CONFIG st = Some stored -> stored <> [] ->
  load_logging_config w (logging_path w settings) settings = Ret config ->
  (exists key, (key ∈ keys config) /\ (key ∉ keys stored)) ->
  (exists key, (key ∈ keys config) /\ (key ∉ keys stored) /\
     setup_logging w settings st = (Raise (KeyError key), st)) /\
  (forall other diff,
     config_diff stored other = Ret diff ->
     forall key, key ∉ keys other -> key ∉ keys diff).
Proof.
  intros Hst Hne Hload Hnew. split.
  - destruct (config_diff_missing stored config Hnew) as (key & Hk & Hm & Hdiff).
    exists key. split; [done|]. split; [done|].
    unfold setup_logging. rewrite Hload, Hst.
    destruct stored as [|s0 stored]; [done|]. simpl truthy. cbv iota.
    simpl default. by rewrite Hdiff.
  - intros other diff Hdiff key Hkey (e & -> & Hin)%list_elem_of_fmap.
    apply Hkey. apply (config_diff_items _ _ _ Hdiff) in Hin.
    destruct e. by eapply elem_of_keys.
Qed.
End GateClaims.

(** ** Copying the configuration of ['prefect.extra'] *)

Lemma logger_at_alter_eq f k (r : gmap string Logger) :
  is_Some (r !! k) -> logger_at (alter f k r) k = f (logger_at r k).
Proof.
  intros [l Hl]. unfold logger_at. by rewrite lookup_alter_eq, Hl.
Qed.

Lemma logger_at_alter_ne f k k' (r : gmap string Logger) :
  k <> k' -> logger_at (alter f k r) k' = logger_at r k'.
Proof. intros Hne. unfold logger_at. by rewrite lookup_alter_ne. Qed.

Lemma alter_is_Some f k k' (r : gmap string Logger) :
  is_Some (r !! k') -> is_Some (alter f k r !! k').
Proof.
  intros [l Hl]. destruct (decide (k = k')) as [->|Hne].
  - rewrite lookup_alter_eq, Hl. by eexists.
  - rewrite lookup_alter_ne by done. by eexists.
Qed.

Lemma logger_at_getLogger name (r : gmap string Logger) k :
  logger_at (getLogger name r) k = logger_at r k.
Proof.
  unfold getLogger, logger_at.
  destruct (r !! logger_key name) eqn:Hk; [done|].
  destruct (decide (logger_key name = k)) as [<-|Hne].
  - by rewrite lookup_insert_eq, Hk.
  - by rewrite lookup_insert_ne.
Qed.

Lemma getLogger_is_Some name (r : gmap string Logger) :
  is_Some (getLogger name r !! logger_key name).
Proof.
  unfold getLogger. destruct (r !! logger_key name) eqn:Hk; [by eexists|].
  rewrite lookup_insert_eq. by eexists.
Qed.

Lemma setLevel_same l : setLevel (level l) l = l.
Proof. by destruct l. Qed.

Lemma set_propagate_same l : set_propagate (propagate l) l = l.
Proof. by destruct l. Qed.

Lemma addHandler_present h l : h ∈ handlers l -> addHandler h l = l.
Proof. intros Hin. unfold addHandler. by rewrite bool_decide_eq_true_2. Qed.

Lemma addHandler_handlers h l h' :
  h' ∈ handlers (addHandler h l) <-> h' = h \/ h' ∈ handlers l.
Proof.
  unfold addHandler. case_bool_decide as Hin; simpl.
  - split; [by right|]. by intros [->|].
  - rewrite elem_of_app, list_elem_of_singleton. tauto.
Qed.

Lemma addHandler_level h l : level (addHandler h l) = level l.
Proof. unfold addHandler. by case_bool_decide. Qed.

Lemma copied_level_idem own extra :
  copied_level (copied_level own extra) extra = copied_level own extra.
Proof.
  unfold copied_level. destruct (Z.eqb_spec own NOTSET) as [->|Hne].
  - by destruct (Z.eqb_spec extra NOTSET).
  - by destruct (Z.eqb_spec own NOTSET).
Qed.

Lemma copy_onto_spec X T h :
  let T' := copy_onto X T h in
  (forall h', h' ∈ handlers T' <-> h' = h \/ h' ∈ handlers T) /\
  propagate T' = propagate X /\
  level T' = copied_level (level T) (level X).
Proof.
  unfold copy_onto, copied_level. rewrite addHandler_level.
  destruct (Z.eqb (level T) NOTSET); simpl;
    (split; [apply addHandler_handlers|]); split; try done.
  apply addHandler_level.
Qed.

(** The handlers of [X] copied one after the other onto [T]. *)
Lemma foldl_copy_onto X hs :
  forall T,
    let T' := foldl (copy_onto X) T hs in
    (forall h, h ∈ handlers T' <-> h ∈ hs \/ h ∈ handlers T) /\
    (hs = [] -> T' = T) /\
    (hs <> [] -> propagate T' = propagate X /\
                 level T' = copied_level (level T) (level X)).
Proof.
  induction hs as [|h hs IH]; intros T; simpl.
  - split; [|done]. intros h. rewrite elem_of_nil. tauto.
  - destruct (copy_onto_spec X T h) as (Hh & Hp & Hl).
    destruct (IH (copy_onto X T h)) as (IHh & IHnil & IHcons).
    split; [|split; [done|]].
    + intros h'. rewrite IHh, Hh, elem_of_cons. tauto.
    + intros _. destruct hs as [|h2 hs].
      * by rewrite IHnil.
      * destruct IHcons as [-> ->]; [done|]. split; [done|].
        by rewrite Hl, copied_level_idem.
Qed.

(** One pass of the loop body when the target is another logger than
    ['prefect.extra']. *)
Lemma copy_handler_other x t (r : gmap string Logger) h :
  x <> t -> is_Some (r !! t) ->
  logger_at (copy_handler x t r h) t = copy_onto (logger_at r x) (logger_at r t) h /\
  (forall k, k <> t -> logger_at (copy_handler x t r h) k = logger_at r k) /\
  is_Some (copy_handler x t r h !! t).
Proof.
  intros Hne Hsome. unfold copy_handler, copy_onto. cbv zeta.
  set (reg1 := alter (addHandler h) t r).
  assert (H1 : logger_at reg1 t = addHandler h (logger_at r t))
    by (by apply logger_at_alter_eq).
  assert (H1x : logger_at reg1 x = logger_at r x)
    by (by apply logger_at_alter_ne).
  assert (S1 : is_Some (reg1 !! t)) by (by apply alter_is_Some).
  rewrite H1, H1x.
  destruct (Z.eqb (level (addHandler h (logger_at r t))) NOTSET).
  - set (reg2 := alter (setLevel (level (logger_at r x))) t reg1).
    assert (H2 : logger_at reg2 t = setLevel (level (logger_at r x))
                                      (addHandler h (logger_at r t)))
      by (unfold reg2; rewrite logger_at_alter_eq by done; by rewrite H1).
    assert (H2x : logger_at reg2 x = logger_at r x)
      by (unfold reg2; by rewrite logger_at_alter_ne).
    assert (S2 : is_Some (reg2 !! t)) by (by apply alter_is_Some).
    rewrite H2x. split; [rewrite logger_at_alter_eq by done; by rewrite H2|].
    split; [|by apply alter_is_Some].
    intros k Hk. unfold reg2, reg1. by rewrite !logger_at_alter_ne.
  - rewrite H1x. split; [rewrite logger_at_alter_eq by done; by rewrite H1|].
    split; [|by apply alter_is_Some].
    intros k Hk. unfold reg1. by rewrite !logger_at_alter_ne.
Qed.

(** One pass when the target is ['prefect.extra'] itself: its own handler
    is already there, and its level and flag are copied onto themselves. *)
Lemma copy_handler_self t (r : gmap string Logger) h :
  is_Some (r !! t) -> h ∈ handlers (logger_at r t) ->
  logger_at (copy_handler t t r h) t = logger_at r t /\
  (forall k, k <> t -> logger_at (copy_handler t t r h) k = logger_at r k) /\
  is_Some (copy_handler t t r h !! t).
Proof.
  intros Hsome Hin. unfold copy_handler. cbv zeta.
  set (reg1 := alter (addHandler h) t r).
  assert (H1 : logger_at reg1 t = logger_at r t)
    by (unfold reg1; rewrite logger_at_alter_eq by done; by rewrite addHandler_present).
  assert (S1 : is_Some (reg1 !! t)) by (by apply alter_is_Some).
  rewrite H1.
  destruct (Z.eqb (level (logger_at r t)) NOTSET).
  - set (reg2 := alter (setLevel (level (logger_at r t))) t reg1).
    assert (H2 : logger_at reg2 t = logger_at r t)
      by (unfold reg2; rewrite logger_at_alter_eq by done; by rewrite H1, setLevel_same).
    assert (S2 : is_Some (reg2 !! t)) by (by apply alter_is_Some).
    rewrite H2. split; [rewrite logger_at_alter_eq by done; by rewrite H2, set_propagate_same|].
    split; [|by apply alter_is_Some].
    intros k Hk. unfold reg2, reg1. by rewrite !logger_at_alter_ne.
  - rewrite H1. split; [rewrite logger_at_alter_eq by done; by rewrite H1, set_propagate_same|].
    split; [|by apply alter_is_Some].
    intros k Hk. unfold reg1. by rewrite !logger_at_alter_ne.
Qed.

Lemma foldl_copy_handler_other x t hs :
  x <> t -> forall r : gmap string Logger, is_Some (r !! t) ->
  logger_at (foldl (copy_handler x t) r hs) t
    = foldl (copy_onto (logger_at r x)) (logger_at r t) hs /\
  (forall k, k <> t -> logger_at (foldl (copy_handler x t) r hs) k = logger_at r k).
Proof.
  intros Hne. induction hs as [|h hs IH]; intros r Hsome; [done|]. simpl.
  destruct (copy_handler_other x t r h Hne Hsome) as (Ht & Hk & Hs).
  destruct (IH _ Hs) as [IHt IHk]. split.
  - by rewrite IHt, Ht, Hk.
  - intros k Hkt. by rewrite IHk, Hk.
Qed.

Lemma foldl_copy_handler_self t hs :
  forall r : gmap string Logger, is_Some (r !! t) ->
  (forall h, h ∈ hs -> h ∈ handlers (logger_at r t)) ->
  forall k, logger_at (foldl (copy_handler t t) r hs) k = logger_at r k.
Proof.
  induction hs as [|h hs IH]; intros r Hsome Hin k; [done|]. simpl.
  destruct (copy_handler_self t r h Hsome) as (Ht & Hk & Hs);
    [apply Hin, list_elem_of_here|].
  rewrite IH; [| done |].
  - destruct (decide (k = t)) as [->|Hne]; [done|by apply Hk].
  - intros h' Hh'. rewrite Ht. by apply Hin, list_elem_of_further.
Qed.

(** The body of the outer loop, for one logger name. *)
Lemma copy_extra_config_spec (r : gmap string Logger) logger_name :
  let X := logger_at r "prefect.extra" in
  let T := logger_at r (logger_key logger_name) in
  let r' := copy_extra_config r logger_name in
  let T' := logger_at r' (logger_key logger_name) in
  logger_at r' "prefect.extra" = X /\
  (forall k, k <> logger_key logger_name -> logger_at r' k = logger_at r k) /\
  (handlers X = [] -> T' = T) /\
  (handlers X <> [] ->
     (forall h, h ∈ handlers X -> h ∈ handlers T') /\
     propagate T' = propagate X /\
     level T' = copied_level (level T) (level X)).
Proof.
  intros X T r' T'. subst r' T'. unfold copy_extra_config.
  assert (HX0 : logger_at r "prefect.extra" = X) by done.
  assert (HT0 : logger_at r (logger_key logger_name) = T) by done.
  clearbody X T.
  set (r0 := getLogger logger_name r).
  assert (HX : logger_at r0 "prefect.extra" = X)
    by (unfold r0; by rewrite logger_at_getLogger).
  assert (HT : logger_at r0 (logger_key logger_name) = T)
    by (unfold r0; by rewrite logger_at_getLogger).
  assert (Hsome : is_Some (r0 !! logger_key logger_name))
    by apply getLogger_is_Some.
  assert (Hr0 : forall k, logger_at r0 k = logger_at r k)
    by (intros k; apply logger_at_getLogger).
  clearbody r0. rewrite HX.
  destruct (decide ("prefect.extra" = logger_key logger_name)) as [Heq|Hne].
  - rewrite <- Heq in *.
    assert (T = X) as -> by (by rewrite <- HT, <- HX).
    assert (Hall : forall k,
      logger_at (foldl (copy_handler "prefect.extra" "prefect.extra") r0
                       (handlers X)) k = logger_at r0 k).
    { apply foldl_copy_handler_self; [done|]. intros h. by rewrite HX. }
    rewrite Hall, HX.
    split; [done|]. split; [intros k _; by rewrite Hall|].
    split; [done|]. intros _. split; [done|]. split; [done|].
    unfold copied_level. by destruct (Z.eqb (level X) NOTSET).
  - destruct (foldl_copy_handler_other "prefect.extra" _ (handlers X) Hne r0 Hsome)
      as [Ht Hk].
    rewrite HX, HT in Ht.
    destruct (foldl_copy_onto X (handlers X) T) as (Hh & Hnil & Hcons).
    split; [by rewrite Hk, HX|]. split; [intros k Hkt; by rewrite Hk|].
    rewrite Ht. split; [done|]. intros Hhs. split; [|by apply Hcons].
    intros h Hin. apply Hh. by left.
Qed.

(** The outer loop, by the names treated so far. *)
Lemma foldl_copy_extra_config names (reg : gmap string Logger) :
  let X := logger_at reg "prefect.extra" in
  let r := foldl copy_extra_config (getLogger "prefect.extra" reg) names in
  logger_at r "prefect.extra" = X /\
  (forall k, k ∉ logger_key <$> names -> logger_at r k = logger_at reg k) /\
  (handlers X = [] -> forall k, logger_at r k = logger_at reg k) /\
  (handlers X <> [] -> forall k, k ∈ logger_key <$> names ->
     (forall h, h ∈ handlers X -> h ∈ handlers (logger_at r k)) /\
     propagate (logger_at r k) = propagate X /\
     level (logger_at r k) = copied_level (level (logger_at reg k)) (level X)).
Proof.
  intros X. induction names as [|n names IH] using rev_ind.
  - simpl. split; [apply logger_at_getLogger|].
    split; [intros; apply logger_at_getLogger|].
    split; [intros; apply logger_at_getLogger|].
    intros _ k Hk. by apply elem_of_nil in Hk.
  - rewrite foldl_app. simpl.
    set (r := foldl copy_extra_config (getLogger "prefect.extra" reg) names) in *.
    simpl in IH. destruct IH as (IHX & IHout & IHnil & IHcons).
    destruct (copy_extra_config_spec r n) as (HX & Hother & Hnil & Hcons).
    rewrite IHX in HX, Hnil, Hcons.
    split; [done|]. split; [|split].
    + intros k Hk. rewrite fmap_app in Hk. apply not_elem_of_app in Hk as [Hk Hn].
      rewrite Hother; [by apply IHout|].
      intros ->. apply Hn. simpl. apply list_elem_of_here.
    + intros Hhs k. destruct (decide (k = logger_key n)) as [->|Hne].
      * rewrite Hnil by done. by apply IHnil.
      * rewrite Hother by done. by apply IHnil.
    + intros Hhs k Hk. destruct (decide (k = logger_key n)) as [->|Hne].
      * destruct (Hcons Hhs) as (Hh & Hp & Hl). split; [done|]. split; [done|].
        rewrite Hl. destruct (decide (logger_key n ∈ logger_key <$> names))
          as [Hseen|Hnew].
        -- destruct (IHcons Hhs _ Hseen) as (_ & _ & ->).
           apply copied_level_idem.
        -- by rewrite IHout.
      * rewrite Hother by done. apply IHcons; [done|].
        rewrite fmap_app in Hk. apply elem_of_app in Hk as [Hk|Hk]; [done|].
        simpl in Hk. by apply list_elem_of_singleton in Hk.
Qed.

(** C10: after the loop over the extra logger names, if ['prefect.extra']
    has no handler then no logger has changed, level and propagation
    included; if it has one, every named logger holds the handlers of
    ['prefect.extra'] and its propagate flag, and has taken its level
    exactly when its own level was [NOTSET]. *)
Theorem configure_extra_loggers_spec (names : list string)
    (reg : gmap string Logger) :
  let X := logger_at reg "prefect.extra" in
  let reg' := configure_extra_loggers names reg in
  (handlers X = [] -> forall k, logger_at reg' k = logger_at reg k) /\
  (handlers X <> [] ->
   forall logger_name, logger_name ∈ names ->
     let T := logger_at reg (logger_key logger_name) in
     let T' := logger_at reg' (logger_key logger_name) in
     (forall h, h ∈ handlers X -> h ∈ handlers T') /\
     propagate T' = propagate X /\
     level T' = if Z.eqb (level T) NOTSET then level X else level T).
Proof.
  intros X reg'.
  destruct (foldl_copy_extra_config names reg) as (_ & _ & Hnil & Hcons).
  split; [exact Hnil|]. intros Hhs logger_name Hin T T'.
  apply (Hcons Hhs). by apply list_elem_of_fmap_2.
Qed.

(** ** The drift check *)

Section Drift.
Context `{E : Externals}.
Implicit Types (w : world) (settings : Settings) (st : process).

(** What the set state does when every key of the new configuration is
    also a key of the stored one: the call returns, [dictConfig] is not
    called, and one warning is given exactly when some value differs. *)
Lemma setup_logging_drift w settings st stored config :
  PROCESS_LOGGING_CONFIG st = Some stored -> stored <> [] ->
  load_logging_config w (logging_path w settings) settings = Ret config ->
  keys config ⊆ keys stored ->
  exists diff,
    config_diff stored config = Ret diff /\
    setup_logging w settings st =
      (Ret tt, match diff with [] => st | _ :: _ => emit (Warning diff) st end).
Proof.
  intros Hst Hne Hload Hkeys.
  assert (Hdiff : exists diff, config_diff stored config = Ret diff).
  { clear Hload. induction config as [|[key val] rest IH]; [by eexists|].
    simpl. rewrite keys_cons in Hkeys.
    destruct (dict_get stored key) as [old|] eqn:Hget.
    - destruct IH as [d ->]; [|by eexists].
      intros k Hk. by apply Hkeys, list_elem_of_further.
    - exfalso. assert (Hin : key ∈ keys stored) by apply Hkeys, list_elem_of_here.
      apply list_elem_of_fmap in Hin as ([k0 v0] & -> & Hin). simpl in Hget.
      by apply (dict_get_absent_inv stored k0 v0). }
  destruct Hdiff as [diff Hdiff]. exists diff. split; [done|].
  unfold setup_logging. rewrite Hload, Hst.
  destruct stored as [|s0 stored]; [done|]. simpl truthy. cbv iota.
  simpl default. rewrite Hdiff. by destruct diff.
Qed.

(** The secondary step of a first call works on the registry that
    [dictConfig] left. *)
Lemma setup_logging_copies_extra w settings st st1 :
  PROCESS_LOGGING_CONFIG st = None ->
  setup_logging w settings st = (Ret tt, st1) ->
  exists config reg,
    configure config (loggers st) = (Ret tt, reg) /\
    loggers st1 =
      configure_extra_loggers (PREFECT_LOGGING_EXTRA_LOGGERS settings) reg.
Proof.
  intros Hst. unfold setup_logging. rewrite Hst.
  destruct (load_logging_config _ _ _) as [config|e]; [|done].
  simpl truthy. cbv iota. unfold dictConfig.
  destruct (dict_get config "version") as [v|]; [|done].
  destruct (py_eq v (VInt 1)); [|done]. simpl loggers.
  destruct (configure config (loggers st)) as [[[]|e] reg] eqn:Hconf; [|done].
  intros [= <-]. by exists config, reg.
Qed.
End Drift.

(** ** The claims on the example data *)

Ltac decide_by_evaluation := apply (bool_decide_unpack _); vm_compute; reflexivity.

Lemma setup_logging_gate_witness :
  exists config,
    load_logging_config (E := Example.externals)
      (Example.world_with Example.level_text ∅)
      (logging_path (E := Example.externals)
         (Example.world_with Example.level_text ∅) "INFO") "INFO"
      = Ret config /\
    dictConfig_calls
      (trace (snd (setup_logging (E := Example.externals)
                     (Example.world_with Example.level_text ∅) "INFO"
                     (initial_process Example.root_only))))
      = dictConfig_calls (trace (initial_process Example.root_only)) ++ [config] /\
    PROCESS_LOGGING_CONFIG
      (snd (setup_logging (E := Example.externals)
              (Example.world_with Example.level_text ∅) "INFO"
              (initial_process Example.root_only))) = Some config /\
    forall calls : list (world * string),
      dictConfig_calls
        (trace (run (E := Example.externals) calls
                  (snd (setup_logging (E := Example.externals)
                          (Example.world_with Example.level_text ∅) "INFO"
                          (initial_process Example.root_only)))))
        = dictConfig_calls (trace (initial_process Example.root_only)) ++ [config] /\
      PROCESS_LOGGING_CONFIG
        (run (E := Example.externals) calls
           (snd (setup_logging (E := Example.externals)
                   (Example.world_with Example.level_text ∅) "INFO"
                   (initial_process Example.root_only)))) = Some config.
Proof.
  apply (setup_logging_gate (E := Example.externals)).
  - reflexivity.
  - vm_compute. reflexivity.
Defined.

Lemma process_config_set_once_witness :
  PROCESS_LOGGING_CONFIG
    (run (E := Example.externals)
         [(Example.world_with Example.base_text ∅, "INFO")]
         (initial_process Example.root_only)) = Some [("version", VInt 1)] /\
  forall more,
    PROCESS_LOGGING_CONFIG
      (run (E := Example.externals)
           ([(Example.world_with Example.base_text ∅, "INFO")] ++ more)
           (initial_process Example.root_only)) = Some [("version", VInt 1)].
Proof.
  assert (H : PROCESS_LOGGING_CONFIG
                (run (E := Example.externals)
                     [(Example.world_with Example.base_text ∅, "INFO")]
                     (initial_process Example.root_only))
              = Some [("version", VInt 1)]) by (vm_compute; reflexivity).
  split; [exact H|].
  exact (proj1 (process_config_set_once (E := Example.externals) _ _ _ H)).
Defined.

Lemma unregistered_placeholder_aborts_witness :
  exists e,
    template_error (template_mapping (E := Example.externals) "INFO") e /\
    resolve_template (E := Example.externals) Example.unknown_text "INFO" = Raise e /\
    load_logging_config (E := Example.externals)
      (Example.world_with Example.unknown_text ∅)
      (logging_path (E := Example.externals)
         (Example.world_with Example.unknown_text ∅) "INFO") "INFO"
      = Raise e /\
    setup_logging (E := Example.externals)
      (Example.world_with Example.unknown_text ∅) "INFO" Example.after_first
      = (Raise e, Example.after_first).
Proof.
  apply (unregistered_placeholder_aborts (E := Example.externals)
           (Example.world_with Example.unknown_text ∅) "INFO" Example.after_first
           Example.unknown_text "NO_SUCH_SETTING").
  - vm_compute. reflexivity.
  - decide_by_evaluation.
  - decide_by_evaluation.
Defined.

Lemma resolve_log_level_witness :
  substitute "level: ${LOG_LEVEL}"
    (template_mapping (E := Example.externals) "INFO") = Ret "level: INFO" /\
  resolve_template (E := Example.externals) "level: ${LOG_LEVEL}" "INFO"
    = Ret (VDict [("level", VStr "INFO")]).
Proof.
  apply (resolve_log_level (E := Example.externals) "INFO"
           {| name := "LOG_LEVEL"; value_from := fun level : string => level |}).
  - decide_by_evaluation.
  - apply list_elem_of_here.
  - reflexivity.
  - reflexivity.
  - vm_compute. reflexivity.
Defined.

Lemma drift_check_raises_KeyError_witness :
  exists key,
    (key ∈ keys [("version", VInt 1); ("level", VStr "INFO")]) /\
    (key ∉ keys [("version", VInt 1)]) /\
    setup_logging (E := Example.externals)
      (Example.world_with Example.extended_text ∅) "INFO" Example.after_first
    = (Raise (KeyError key), Example.after_first).
Proof.
  refine (proj1 (drift_check_raises_KeyError (E := Example.externals)
                   (Example.world_with Example.extended_text ∅) "INFO"
                   Example.after_first [("version", VInt 1)]
                   [("version", VInt 1); ("level", VStr "INFO")] _ _ _ _)).
  - vm_compute. reflexivity.
  - discriminate.
  - vm_compute. reflexivity.
  - exists "level". split; decide_by_evaluation.
Defined.

(** C2, on the example: the set state holds [{version: 1}]; a second call
    resolves [{version: 1, level: "INFO"}], which differs from it; the call
    gives no warning and does not return: it raises [KeyError] for the
    new key. *)
Theorem drift_check_new_key_example :
  PROCESS_LOGGING_CONFIG Example.after_first = Some [("version", VInt 1)] /\
  load_logging_config (E := Example.externals)
    (Example.world_with Example.extended_text ∅) "logging.yml" "INFO"
    = Ret [("version", VInt 1); ("level", VStr "INFO")] /\
  setup_logging (E := Example.externals)
    (Example.world_with Example.extended_text ∅) "INFO" Example.after_first
  = (Raise (KeyError "level"), Example.after_first).
Proof. repeat split; vm_compute; reflexivity. Qed.

Lemma configure_extra_loggers_spec_witness :
  (forall k,
     logger_at (configure_extra_loggers ["uvicorn"] Example.root_only) k
       = logger_at Example.root_only k) /\
  (7 ∈ handlers (logger_at (configure_extra_loggers ["uvicorn"; "sqlalchemy"]
                              Example.with_extra) "uvicorn")) /\
  level (logger_at (configure_extra_loggers ["uvicorn"; "sqlalchemy"]
                      Example.with_extra) "uvicorn") = 20%Z /\
  level (logger_at (configure_extra_loggers ["uvicorn"; "sqlalchemy"]
                      Example.with_extra) "sqlalchemy") = 40%Z /\
  propagate (logger_at (configure_extra_loggers ["uvicorn"; "sqlalchemy"]
                          Example.with_extra) "sqlalchemy") = false.
Proof.
  pose proof (configure_extra_loggers_spec ["uvicorn"] Example.root_only)
    as [Hnone _].
  pose proof (configure_extra_loggers_spec ["uvicorn"; "sqlalchemy"]
                Example.with_extra) as [_ Hsome].
  assert (Hhs : handlers (logger_at Example.with_extra "prefect.extra") <> [])
    by (vm_compute; discriminate).
  specialize (Hnone eq_refl).
  pose proof (Hsome Hhs "uvicorn" ltac:(decide_by_evaluation)) as (Hu & _ & Hul).
  pose proof (Hsome Hhs "sqlalchemy" ltac:(decide_by_evaluation)) as (_ & Hsp & Hsl).
  split; [exact Hnone|]. split; [apply Hu; decide_by_evaluation|].
  split; [exact Hul|]. split; [exact Hsl|exact Hsp].
Defined.

(** * Further properties of the code *)

(** ** to_envvar and the names of the variables *)

Lemma sub_non_alnum_fixed s :
  (forall b, sub_non_alnum false (sub_non_alnum b s) = sub_non_alnum b s) /\
  sub_non_alnum true (sub_non_alnum true s) = sub_non_alnum true s.
Proof.
  induction s as [|c r [IHf IHt]]; [done|]. split.
  - intros b. simpl. destruct (is_alnum c) eqn:Hc.
    + simpl. by rewrite Hc, IHf.
    + destruct b; [apply IHf|]. simpl. by rewrite IHt.
  - simpl. destruct (is_alnum c) eqn:Hc; [|done]. simpl. by rewrite Hc, IHf.
Qed.

(** X1: [to_envvar] is idempotent: a text it has produced is left as it is. *)
Theorem to_envvar_idempotent s : to_envvar (to_envvar s) = to_envvar s.
Proof. apply sub_non_alnum_fixed. Qed.

Lemma sub_non_alnum_name_chars s :
  name_chars false (sub_non_alnum false s) = true /\
  forall b, name_chars b (sub_non_alnum true s) = true.
Proof.
  induction s as [|c r [IHf IHt]]; [done|]. simpl.
  destruct (is_alnum c) eqn:Hc.
  - simpl. rewrite Hc. split; [done|by intros _].
  - split; [|done]. simpl. by rewrite IHt.
Qed.

(** X2: the result of [to_envvar] holds letters, digits and underscores
    only, and never two underscores in a row. *)
Theorem to_envvar_name_chars s : name_chars false (to_envvar s) = true.
Proof. apply sub_non_alnum_name_chars. Qed.

Lemma envvar_name_unfold key_tup :
  envvar_name key_tup =
  "PREFECT_LOGGING_" +:+ upper (sub_non_alnum true (String.concat "_" key_tup)).
Proof. reflexivity. Qed.

(** Every name that [load_logging_config] looks up in the environment
    starts with [PREFECT_LOGGING_], whatever the keys are. *)
Lemma envvar_name_prefix key_tup :
  exists rest, envvar_name key_tup = "PREFECT_LOGGING_" +:+ rest.
Proof. eexists. apply envvar_name_unfold. Qed.

(** One character outside the class is as good as another. *)
Lemma sub_non_alnum_separator b x c c' y :
  is_alnum c = false -> is_alnum c' = false ->
  sub_non_alnum b (x +:+ String c y) = sub_non_alnum b (x +:+ String c' y).
Proof.
  intros Hc Hc'. revert b. induction x as [|a x IH]; intros b.
  - rewrite !append_nil_l. simpl. by rewrite Hc, Hc'.
  - rewrite !append_cons. simpl. by rewrite !IH.
Qed.

Lemma concat_cons_tail sep (x : string) l :
  String.concat sep (x :: l) =
  x +:+ match l with [] => EmptyString | _ :: _ => sep +:+ String.concat sep l end.
Proof. destruct l; simpl; [by rewrite append_nil_r|done]. Qed.

Lemma concat_app_cons sep (pre : keypath) (x : string) l :
  String.concat sep (pre ++ x :: l) =
  String.concat EmptyString ((fun k => k +:+ sep) <$> pre)
    +:+ String.concat sep (x :: l).
Proof.
  induction pre as [|a pre IH]; [done|].
  rewrite fmap_cons, concat_empty_cons, <- app_comm_cons, concat_cons_tail.
  destruct (pre ++ x :: l) eqn:Heq; [by destruct pre|].
  by rewrite IH, !append_assoc.
Qed.

(** X3: a key that holds a character outside [[0-9a-zA-Z]] (a dot, a dash,
    an underscore, ...) is looked up under the same variable as the two
    nested keys it splits into: the names of distinct key-paths collide. *)
Theorem envvar_name_collision (pre : keypath) (k1 k2 : string) (c : ascii)
    (rest : keypath) :
  is_alnum c = false ->
  envvar_name (pre ++ (k1 +:+ String c k2) :: rest)
    = envvar_name (pre ++ k1 :: k2 :: rest).
Proof.
  intros Hc. unfold envvar_name, to_envvar. f_equal.
  rewrite !concat_app_cons.
  set (P := String.concat EmptyString ((fun k => k +:+ "_") <$> pre)).
  rewrite (concat_cons_tail "_" k1), !(concat_cons_tail "_" _ rest).
  set (T := match rest with
            | [] => EmptyString
            | _ :: _ => "_" +:+ String.concat "_" rest
            end).
  assert (H1 : "PREFECT_LOGGING_" +:+ P +:+ (k1 +:+ String c k2) +:+ T
               = ("PREFECT_LOGGING_" +:+ P +:+ k1) +:+ String c (k2 +:+ T))
    by (by rewrite !append_assoc, append_cons).
  assert (H2 : "PREFECT_LOGGING_" +:+ P +:+ k1 +:+ "_" +:+ k2 +:+ T
               = ("PREFECT_LOGGING_" +:+ P +:+ k1) +:+ String "_"%char (k2 +:+ T))
    by (by rewrite !append_assoc).
  rewrite H1, H2. by apply sub_non_alnum_separator.
Qed.

Lemma envvar_name_collision_witness :
  envvar_name (["handlers"] ++ ("console" +:+ String "."%char "level") :: [])
    = envvar_name (["handlers"] ++ ["console"; "level"]).
Proof.
  apply (envvar_name_collision ["handlers"] "console" "level" "."%char []).
  vm_compute. reflexivity.
Defined.

Lemma is_alnum_upper_char c : is_alnum (upper_char c) = is_alnum c.
Proof. destruct c as [[] [] [] [] [] [] [] []]; vm_compute; reflexivity. Qed.

Lemma upper_char_idem c : upper_char (upper_char c) = upper_char c.
Proof. destruct c as [[] [] [] [] [] [] [] []]; vm_compute; reflexivity. Qed.

Lemma upper_append (x y : string) : upper (x +:+ y) = upper x +:+ upper y.
Proof. induction x as [|c x IH]; [done|]. rewrite !append_cons. simpl. by rewrite IH. Qed.

Lemma upper_concat (l : keypath) :
  upper (String.concat "_" l) = String.concat "_" (upper <$> l).
Proof.
  induction l as [|x l IH]; [done|].
  rewrite fmap_cons, !concat_cons_tail, upper_append.
  destruct l as [|y l]; [done|]. by rewrite upper_append, IH.
Qed.

Lemma upper_sub_non_alnum_upper b s :
  upper (sub_non_alnum b (upper s)) = upper (sub_non_alnum b s).
Proof.
  revert b. induction s as [|c r IH]; intros b; [done|]. simpl.
  rewrite is_alnum_upper_char. destruct (is_alnum c).
  - simpl. by rewrite upper_char_idem, IH.
  - destruct b; [apply IH|]. simpl. by rewrite IH.
Qed.

(** Folding the ASCII letters of the keys to capitals does not change
    the name.  ([upper] is the fold of ASCII letters here, not
    [str.upper] of a key.) *)
Lemma envvar_name_fold_case (key_tup : keypath) :
  envvar_name (upper <$> key_tup) = envvar_name key_tup.
Proof.
  rewrite !envvar_name_unfold. f_equal.
  rewrite <- upper_concat. apply upper_sub_non_alnum_upper.
Qed.

Lemma same_letter_upper_char c d :
  same_letter c d = true -> upper_char c = upper_char d.
Proof.
  unfold same_letter. intros [Heq|Hcase]%orb_prop.
  - by apply Ascii.eqb_eq in Heq as ->.
  - apply andb_prop in Hcase as [_ Hup]. by apply Ascii.eqb_eq.
Qed.

Lemma same_up_to_case_upper s t :
  same_up_to_case s t = true -> upper s = upper t.
Proof.
  revert t. induction s as [|c s IH]; intros [|d t]; simpl; try done.
  intros [Hc Hs]%andb_prop. by rewrite (same_letter_upper_char c d Hc), (IH t Hs).
Qed.

(** X4: the names are blind to the case of ASCII letters: two key-paths
    of the same length whose keys differ at most in the case of the
    letters [a]-[z] are looked up under one variable. *)
Theorem envvar_name_case_insensitive (p q : keypath) :
  Forall2 (fun k k' => same_up_to_case k k' = true) p q ->
  envvar_name p = envvar_name q.
Proof.
  intros Hpq.
  assert (Hup : upper <$> p = upper <$> q).
  { induction Hpq as [|k k' p q Hk _ IH]; [done|].
    by rewrite !fmap_cons, IH, (same_up_to_case_upper k k' Hk). }
  by rewrite <- (envvar_name_fold_case p), Hup, envvar_name_fold_case.
Qed.

Lemma envvar_name_case_insensitive_witness :
  envvar_name ["Handlers"; "console"; "Level"]
  = envvar_name ["handlers"; "CONSOLE"; "level"].
Proof.
  apply envvar_name_case_insensitive.
  repeat constructor.
Defined.

(** ** load_logging_config and the environment *)

Lemma apply_env_overrides_agree (env1 env2 : gmap string string) config :
  (forall rest, env1 !! ("PREFECT_LOGGING_" +:+ rest)
                = env2 !! ("PREFECT_LOGGING_" +:+ rest)) ->
  apply_env_overrides env1 config = apply_env_overrides env2 config.
Proof.
  intros Hagree. unfold apply_env_overrides. f_equal.
  apply list_fmap_ext. intros i [p v] _. simpl. f_equal.
  unfold env_override. destruct (envvar_name_prefix p) as [rest ->].
  by rewrite Hagree.
Qed.

Section Environment.
Context `{E : Externals}.

(** X5: [load_logging_config] reads no variable of the environment but
    those named [PREFECT_LOGGING_...]: in two surroundings that give the
    same file text and agree on these variables it returns the same
    configuration, or raises the same exception. *)
Theorem load_logging_config_prefixed_only (w1 w2 : world) path settings :
  read_text w1 path = read_text w2 path ->
  (forall rest, environ w1 !! ("PREFECT_LOGGING_" +:+ rest)
                = environ w2 !! ("PREFECT_LOGGING_" +:+ rest)) ->
  load_logging_config w1 path settings = load_logging_config w2 path settings.
Proof.
  intros Hread Henv. unfold load_logging_config. rewrite Hread.
  destruct (read_text w2 path) as [text|e]; [|done]. simpl.
  destruct (resolve_template text settings) as [[| | | | |d]|e]; try done.
  simpl. by rewrite (apply_env_overrides_agree _ _ d Henv).
Qed.
End Environment.

(** ** Template.substitute *)

Lemma subst_lookup_agree (m1 m2 : gmap string string) id :
  m1 !! id = m2 !! id -> subst_lookup m1 id = subst_lookup m2 id.
Proof. unfold subst_lookup. by intros ->. Qed.

Lemma template_scan_agree (m1 m2 : gmap string string) s :
  forall st,
    (forall id, id ∈ template_names st s -> m1 !! id = m2 !! id) ->
    template_scan m1 st s = template_scan m2 st s.
Proof.
  induction s as [|c r IH]; intros st Hagree.
  - destruct st; simpl in *; try done.
    apply subst_lookup_agree, Hagree, list_elem_of_here.
  - assert (Hresume :
      (forall id, id ∈ (if Ascii.eqb c "$"%char then template_names TDelim r
                        else template_names TText r) -> m1 !! id = m2 !! id) ->
      (if Ascii.eqb c "$"%char then template_scan m1 TDelim r
       else do rest <- template_scan m1 TText r; Ret (String c rest)) =
      (if Ascii.eqb c "$"%char then template_scan m2 TDelim r
       else do rest <- template_scan m2 TText r; Ret (String c rest))).
    { intros H. destruct (Ascii.eqb c "$"%char); [by apply IH|].
      by rewrite (IH TText H). }
    destruct st as [| |id0| |id0]; simpl in Hagree |- *.
    + by apply Hresume.
    + destruct (Ascii.eqb c "$"%char); [by rewrite (IH TText Hagree)|].
      destruct (is_id_start c); [by apply IH|].
      destruct (Ascii.eqb c "{"%char); [by apply IH|done].
    + destruct (is_id_char c); [by apply IH|].
      rewrite (subst_lookup_agree m1 m2 id0)
        by apply Hagree, list_elem_of_here.
      rewrite Hresume; [done|]. intros id Hid.
      by apply Hagree, list_elem_of_further.
    + destruct (is_id_start c); [by apply IH|done].
    + destruct (is_id_char c); [by apply IH|].
      destruct (Ascii.eqb c "}"%char); [|done].
      rewrite (subst_lookup_agree m1 m2 id0)
        by apply Hagree, list_elem_of_here.
      rewrite (IH TText); [done|]. intros id Hid.
      by apply Hagree, list_elem_of_further.
Qed.

(** X6: the result of [substitute] depends on the mapping only through the
    names that the template refers to: two mappings that agree on these
    names give the same text, or the same exception. *)
Theorem substitute_agree text (m1 m2 : gmap string string) :
  (forall id, id ∈ placeholders text -> m1 !! id = m2 !! id) ->
  substitute text m1 = substitute text m2.
Proof. apply template_scan_agree. Qed.

(** X7: a text without the delimiter ["$"] is returned as it is, whatever
    the mapping holds. *)
Theorem substitute_no_delimiter text (mapping : gmap string string) :
  forallb (fun c => negb (Ascii.eqb c "$"%char)) (list_ascii_of_string text) = true ->
  substitute text mapping = Ret text.
Proof.
  unfold substitute. induction text as [|c r IH]; [done|]. simpl.
  intros [Hc Hr]%andb_prop. destruct (Ascii.eqb c "$"%char); [done|].
  by rewrite IH.
Qed.

Lemma obind_raise_inv {A B} (x : outcome A) (f : A -> outcome B) e :
  obind x f = Raise e ->
  x = Raise e \/ exists a, x = Ret a /\ f a = Raise e.
Proof. destruct x as [a|e']; simpl; [by right; exists a|by intros [= ->]; left]. Qed.

Lemma template_scan_raise (mapping : gmap string string) s :
  forall st e,
    template_scan mapping st s = Raise e ->
    e = ValueError "Invalid placeholder in string" \/
    exists id, e = KeyError id /\ id ∈ template_names st s /\ mapping !! id = None.
Proof.
  assert (Hlook : forall id e, subst_lookup mapping id = Raise e ->
                    e = KeyError id /\ mapping !! id = None).
  { intros id e. unfold subst_lookup. destruct (mapping !! id); [done|].
    by intros [= <-]. }
  assert (Hinv : forall e, @invalid_placeholder string = Raise e ->
                   e = ValueError "Invalid placeholder in string")
    by (by intros e [= <-]).
  induction s as [|c r IH]; intros st e Hscan.
  - destruct st as [| |id0| |id0]; simpl in Hscan; try done;
      try (left; by apply Hinv).
    right. destruct (Hlook _ _ Hscan) as [-> Hid]. exists id0.
    split; [done|]. split; [apply list_elem_of_here|done].
  - assert (Hresume :
      (if Ascii.eqb c "$"%char then template_scan mapping TDelim r
       else do rest <- template_scan mapping TText r; Ret (String c rest))
        = Raise e ->
      e = ValueError "Invalid placeholder in string" \/
      exists id, e = KeyError id /\
        id ∈ (if Ascii.eqb c "$"%char then template_names TDelim r
              else template_names TText r) /\ mapping !! id = None).
    { destruct (Ascii.eqb c "$"%char); [apply IH|].
      intros [H|(a & _ & H)]%obind_raise_inv; [by apply IH|done]. }
    destruct st as [| |id0| |id0]; simpl in Hscan |- *.
    + by apply Hresume.
    + destruct (Ascii.eqb c "$"%char).
      * apply obind_raise_inv in Hscan as [H|(a & _ & H)]; [by apply IH|done].
      * destruct (is_id_start c); [by apply IH|].
        destruct (Ascii.eqb c "{"%char); [by apply IH|left; by apply Hinv].
    + destruct (is_id_char c); [by apply IH|].
      apply obind_raise_inv in Hscan as [H|(v & _ & H)].
      * right. destruct (Hlook _ _ H) as [-> Hid]. exists id0.
        split; [done|]. split; [apply list_elem_of_here|done].
      * apply obind_raise_inv in H as [H|(a & _ & H)]; [|done].
        destruct (Hresume H) as [->|(id & -> & Hin & Hid)]; [by left|].
        right. exists id. split; [done|]. split; [by apply list_elem_of_further|done].
    + destruct (is_id_start c); [by apply IH|left; by apply Hinv].
    + destruct (is_id_char c); [by apply IH|].
      destruct (Ascii.eqb c "}"%char); [|left; by apply Hinv].
      apply obind_raise_inv in Hscan as [H|(v & _ & H)].
      * right. destruct (Hlook _ _ H) as [-> Hid]. exists id0.
        split; [done|]. split; [apply list_elem_of_here|done].
      * apply obind_raise_inv in H as [H|(a & _ & H)]; [|done].
        destruct (IH _ _ H) as [->|(id & -> & Hin & Hid)]; [by left|].
        right. exists id. split; [done|]. split; [by apply list_elem_of_further|done].
Qed.

(** X8: [substitute] raises nothing but [ValueError] for an ill-formed
    placeholder and [KeyError] for a name; a [KeyError] names a
    placeholder of the template that the mapping lacks. *)
Theorem substitute_raises text (mapping : gmap string string) e :
  substitute text mapping = Raise e ->
  e = ValueError "Invalid placeholder in string" \/
  exists id, e = KeyError id /\ id ∈ placeholders text /\ mapping !! id = None.
Proof. apply template_scan_raise. Qed.

(** ** setup_logging: failures, repetition and the drift report *)

Lemma config_diff_filter stored config diff :
  config_diff stored config = Ret diff ->
  diff = List.filter (differs stored) config.
Proof.
  revert diff. induction config as [|[key val] rest IH]; simpl; intros diff.
  - by intros [= <-].
  - unfold differs at 1. simpl.
    destruct (dict_get stored key) as [old|]; [|done].
    destruct (config_diff stored rest) as [d|e]; [|done]. simpl.
    intros [= <-]. rewrite (IH d eq_refl).
    by destruct (negb (py_eq old val)).
Qed.

(** A configuration whose values are equal to themselves shows no
    difference to itself. *)
Lemma config_diff_self config :
  NoDup (keys config) ->
  Forall (fun item : string * value => py_eq (snd item) (snd item) = true) config ->
  config_diff config config = Ret [].
Proof.
  intros Hnd Hself.
  assert (Hsub : forall part, part ⊆ config -> config_diff config part = Ret []).
  { induction part as [|[key val] rest IH]; intros Hsub; [done|]. simpl.
    assert (Hin : (key, val) ∈ config) by apply Hsub, list_elem_of_here.
    rewrite (dict_get_elem_of config key val) by done.
    rewrite IH by (intros x Hx; by apply Hsub, list_elem_of_further).
    simpl. rewrite Forall_forall in Hself.
    pose proof (Hself (key, val) Hin) as Hval. simpl in Hval.
    by rewrite Hval. }
  by apply Hsub.
Qed.

Section Calls.
Context `{E : Externals}.
Implicit Types (w : world) (settings : Settings) (st : process).

(** X9: a call of [setup_logging] that raises leaves
    [PROCESS_LOGGING_CONFIG] as it was, and when a configuration was
    stored it leaves the whole process state as it was. *)
Theorem setup_logging_raise_keeps_config w settings st e st1 :
  setup_logging w settings st = (Raise e, st1) ->
  PROCESS_LOGGING_CONFIG st1 = PROCESS_LOGGING_CONFIG st /\
  (truthy (PROCESS_LOGGING_CONFIG st) = true -> st1 = st).
Proof.
  unfold setup_logging.
  destruct (load_logging_config _ _ _) as [config|e0];
    [|by intros [= _ <-]].
  destruct (truthy (PROCESS_LOGGING_CONFIG st)).
  - destruct (config_diff _ config) as [[|d ds]|e0]; try done.
    by intros [= _ <-].
  - pose proof (dictConfig_effect config st) as [_ Hcfg].
    destruct (dictConfig config st) as [[u|e0] st0]; [done|].
    intros [= _ <-]. by split.
Qed.

(** X10: a call that repeats the first one, in the same surroundings and
    with the same settings, returns and changes nothing (no second
    [dictConfig], no warning), provided every top-level value of the
    configuration is equal to itself under [==].  (A value that holds a
    NaN is not, and then the repeated call warns.) *)
Theorem setup_logging_repeat w settings st st1 config :
  PROCESS_LOGGING_CONFIG st = None ->
  setup_logging w settings st = (Ret tt, st1) ->
  load_logging_config w (logging_path w settings) settings = Ret config ->
  NoDup (keys config) ->
  Forall (fun item : string * value => py_eq (snd item) (snd item) = true) config ->
  setup_logging w settings st1 = (Ret tt, st1).
Proof.
  intros Hst Hstep Hload Hnd Hself.
  destruct (setup_logging_unset _ _ _ _ Hst Hstep) as (c & Hload' & Hne & _ & Hc).
  rewrite Hload in Hload'. injection Hload' as <-.
  unfold setup_logging. rewrite Hload, Hc.
  destruct config as [|c0 config]; [done|]. simpl truthy. cbv iota.
  simpl default. by rewrite config_diff_self.
Qed.

Lemma run_set_loggers (calls : list (world * Settings)) st stored :
  PROCESS_LOGGING_CONFIG st = Some stored -> stored <> [] ->
  loggers (run calls st) = loggers st.
Proof.
  intros Hst Hne. induction calls as [|c calls IH] using rev_ind; [done|].
  rewrite run_snoc.
  destruct (run_set calls st stored Hst Hne) as [Hc _].
  pose proof (setup_logging_set c.1 c.2 _ stored Hc Hne) as (_ & Hl & _).
  simpl in Hl. by rewrite Hl.
Qed.

(** X11: once a first call has returned, no later call touches the
    registry of loggers: handlers, levels and propagation stay as that
    call left them, whatever configurations the later calls resolve. *)
Theorem loggers_frozen_after_setup w settings st st1
    (calls : list (world * Settings)) :
  PROCESS_LOGGING_CONFIG st = None ->
  setup_logging w settings st = (Ret tt, st1) ->
  loggers (run calls st1) = loggers st1.
Proof.
  intros Hst Hstep.
  destruct (setup_logging_unset _ _ _ _ Hst Hstep) as (c & _ & Hne & _ & Hc).
  by eapply run_set_loggers.
Qed.

(** X12: in the set state, when every key of the new configuration is a key
    of the stored one, the call returns; it warns exactly when some item
    of the new configuration is unequal to the stored value of its key,
    and the warning lists exactly these items, in the order of the new
    configuration; nothing else of the state changes. *)
Theorem setup_logging_drift_report w settings st stored config :
  PROCESS_LOGGING_CONFIG st = Some stored -> stored <> [] ->
  load_logging_config w (logging_path w settings) settings = Ret config ->
  keys config ⊆ keys stored ->
  setup_logging w settings st =
    (Ret tt,
     match List.filter (differs stored) config with
     | [] => st
     | item :: items => emit (Warning (item :: items)) st
     end).
Proof.
  intros Hst Hne Hload Hkeys.
  destruct (setup_logging_drift w settings st stored config Hst Hne Hload Hkeys)
    as (diff & Hdiff & ->).
  rewrite <- (config_diff_filter _ _ _ Hdiff). by destruct diff.
Qed.
End Calls.

(** ** Overrides of top-level values *)

Lemma dict_get_map_leaves_leaf g (d : pydict) k v :
  dict_get d k = Some v -> is_leaf v ->
  dict_get (map_leaves g d) k = Some (g [k] v).
Proof.
  induction d as [|[k' x] r IH]; [done|]. rewrite map_leaves_cons. simpl.
  destruct (String.eqb_spec k k') as [->|Hne]; [|exact IH].
  intros [= ->] Hleaf. by destruct v as [| | | | |[|e d]].
Qed.

(** X13: without a variable [PREFECT_LOGGING_...] that is set to a
    non-empty text, the loop of lines 50-60 assigns every key the value
    it had: what [load_logging_config] returns is the flattened
    configuration re-nested, [flatdict_to_dict (dict_to_flatdict config)],
    whatever these two helpers do. *)
Theorem apply_env_overrides_no_variable (env : gmap string string) config :
  (forall rest, env !! ("PREFECT_LOGGING_" +:+ rest) = None \/
                env !! ("PREFECT_LOGGING_" +:+ rest) = Some EmptyString) ->
  apply_env_overrides env config = flatdict_to_dict (dict_to_flatdict config).
Proof.
  intros Henv. unfold apply_env_overrides. f_equal.
  rewrite <- (list_fmap_id (dict_to_flatdict config)) at 2.
  apply list_fmap_ext. intros i [p v] _. simpl. f_equal.
  unfold env_override. destruct (envvar_name_prefix p) as [rest ->].
  by destruct (Henv rest) as [-> | ->].
Qed.

Section VersionOverride.
Context `{E : Externals}.

(** X14: the version of the configuration can be overridden like any other
    value: with [PREFECT_LOGGING_VERSION] set, the top-level ['version']
    becomes that text as a string, [dictConfig] refuses it, and the first
    call of [setup_logging] raises [ValueError] with nothing stored and no
    logger changed, even for the text ["1"]. *)
Theorem version_override_rejected (w : world) (settings : Settings)
    (st : process) text d v env_val :
  PROCESS_LOGGING_CONFIG st = None ->
  read_text w (logging_path w settings) = Ret text ->
  resolve_template text settings = Ret (VDict d) ->
  wf_dict d -> dict_get d "version" = Some v -> is_leaf v ->
  environ w !! "PREFECT_LOGGING_VERSION" = Some env_val ->
  env_val <> EmptyString ->
  exists st1,
    setup_logging w settings st = (Raise (ValueError "Unsupported version"), st1) /\
    PROCESS_LOGGING_CONFIG st1 = None /\
    loggers st1 = loggers st.
Proof.
  intros Hst Hread Hres Hwf Hget Hleaf Henv Hne.
  assert (Hload : load_logging_config w (logging_path w settings) settings
                  = Ret (apply_env_overrides (environ w) d))
    by (unfold load_logging_config; rewrite Hread; simpl; by rewrite Hres).
  assert (Hver : dict_get (apply_env_overrides (environ w) d) "version"
                 = Some (VStr env_val)).
  { rewrite apply_env_overrides_walk by done.
    rewrite (dict_get_map_leaves_leaf _ d "version" v Hget Hleaf).
    unfold env_override.
    change (envvar_name ["version"]) with "PREFECT_LOGGING_VERSION".
    rewrite Henv. by destruct (String.eqb_spec env_val EmptyString). }
  unfold setup_logging. rewrite Hload, Hst. simpl truthy. cbv iota.
  unfold dictConfig. rewrite Hver. simpl.
  eexists. split; [reflexivity|]. by split.
Qed.
End VersionOverride.

(** ** The loop over the extra loggers: what it leaves alone *)

(** X15: the loop leaves ['prefect.extra'] itself as it is, also when it
    is listed among the extra loggers, and it leaves every logger as it is
    that is not named in the list. *)
Theorem configure_extra_loggers_others (names : list string)
    (reg : gmap string Logger) :
  logger_at (configure_extra_loggers names reg) "prefect.extra"
    = logger_at reg "prefect.extra" /\
  forall k, k ∉ logger_key <$> names ->
    logger_at (configure_extra_loggers names reg) k = logger_at reg k.
Proof.
  destruct (foldl_copy_extra_config names reg) as (HX & Hout & _).
  split; [exact HX|exact Hout].
Qed.

Lemma addHandler_NoDup h l : NoDup (handlers l) -> NoDup (handlers (addHandler h l)).
Proof.
  intros Hnd. unfold addHandler. case_bool_decide as Hin; [done|]. simpl.
  apply NoDup_app. split; [done|]. split; [|apply NoDup_singleton].
  intros x Hx ->%list_elem_of_singleton. done.
Qed.

Lemma copy_onto_NoDup X T h :
  NoDup (handlers T) -> NoDup (handlers (copy_onto X T h)).
Proof.
  intros Hnd. unfold copy_onto.
  destruct (Z.eqb (level (addHandler h T)) NOTSET); simpl; by apply addHandler_NoDup.
Qed.

Lemma foldl_copy_onto_NoDup X hs :
  forall T, NoDup (handlers T) -> NoDup (handlers (foldl (copy_onto X) T hs)).
Proof.
  induction hs as [|h hs IH]; intros T Hnd; [done|].
  simpl. by apply IH, copy_onto_NoDup.
Qed.

(** The handlers of one logger after the body of the outer loop. *)
Lemma copy_extra_config_handlers (r : gmap string Logger) logger_name :
  let X := logger_at r "prefect.extra" in
  let T := logger_at r (logger_key logger_name) in
  let T' := logger_at (copy_extra_config r logger_name) (logger_key logger_name) in
  (forall h, h ∈ handlers T' <-> h ∈ handlers X \/ h ∈ handlers T) /\
  (NoDup (handlers T) -> NoDup (handlers T')).
Proof.
  intros X T T'. subst T'. unfold copy_extra_config.
  assert (HX0 : logger_at r "prefect.extra" = X) by done.
  assert (HT0 : logger_at r (logger_key logger_name) = T) by done.
  clearbody X T.
  set (r0 := getLogger logger_name r).
  assert (HX : logger_at r0 "prefect.extra" = X)
    by (unfold r0; by rewrite logger_at_getLogger).
  assert (HT : logger_at r0 (logger_key logger_name) = T)
    by (unfold r0; by rewrite logger_at_getLogger).
  assert (Hsome : is_Some (r0 !! logger_key logger_name))
    by apply getLogger_is_Some.
  clearbody r0. rewrite HX.
  destruct (decide ("prefect.extra" = logger_key logger_name)) as [Heq|Hne].
  - rewrite <- Heq in *.
    assert (T = X) as -> by (by rewrite <- HT, <- HX).
    rewrite foldl_copy_handler_self; [|done|intros h; by rewrite HX].
    rewrite HX. split; [|done]. intros h. tauto.
  - destruct (foldl_copy_handler_other "prefect.extra" _ (handlers X) Hne r0 Hsome)
      as [Ht _].
    rewrite HX, HT in Ht. rewrite Ht.
    destruct (foldl_copy_onto X (handlers X) T) as (Hh & _ & _).
    split; [exact Hh|apply foldl_copy_onto_NoDup].
Qed.

Lemma foldl_copy_extra_config_handlers names (reg : gmap string Logger) k :
  (forall h,
     h ∈ handlers (logger_at (foldl copy_extra_config
                                (getLogger "prefect.extra" reg) names) k) <->
     (k ∈ logger_key <$> names) /\ h ∈ handlers (logger_at reg "prefect.extra") \/
     h ∈ handlers (logger_at reg k)) /\
  (NoDup (handlers (logger_at reg k)) ->
   NoDup (handlers (logger_at (foldl copy_extra_config
                                 (getLogger "prefect.extra" reg) names) k))).
Proof.
  revert k. induction names as [|n names IH] using rev_ind; intros k.
  - cbn [foldl]. rewrite logger_at_getLogger. split; [|done].
    intros h. rewrite fmap_nil, elem_of_nil. tauto.
  - rewrite foldl_app. cbn [foldl].
    destruct (foldl_copy_extra_config names reg) as (HX & _). cbv zeta in HX.
    set (r := foldl copy_extra_config (getLogger "prefect.extra" reg) names) in *.
    destruct (copy_extra_config_spec r n) as (_ & Hother & _).
    destruct (copy_extra_config_handlers r n) as (Hh & Hnd).
    cbv zeta in Hh, Hnd. rewrite HX in Hh. destruct (IH k) as [IHh IHnd].
    destruct (decide (k = logger_key n)) as [->|Hne].
    + split; [|intros H; by apply Hnd, IHnd].
      intros h. rewrite Hh, IHh, fmap_app, elem_of_app.
      cbn [fmap list_fmap]. rewrite list_elem_of_singleton. tauto.
    + rewrite Hother by done. split; [|done].
      intros h. rewrite IHh, fmap_app, elem_of_app.
      cbn [fmap list_fmap]. rewrite list_elem_of_singleton. tauto.
Qed.

(** X16: after the loop, a logger named in the list holds exactly its own
    handlers and those of ['prefect.extra']: none is lost, none comes from
    elsewhere, and a list of handlers without repetition stays without
    repetition. *)
Theorem configure_extra_loggers_handlers (names : list string)
    (reg : gmap string Logger) logger_name :
  logger_name ∈ names ->
  let X := logger_at reg "prefect.extra" in
  let T := logger_at reg (logger_key logger_name) in
  let T' := logger_at (configure_extra_loggers names reg) (logger_key logger_name) in
  (forall h, h ∈ handlers T' <-> h ∈ handlers X \/ h ∈ handlers T) /\
  (NoDup (handlers T) -> NoDup (handlers T')).
Proof.
  intros Hin X T T'.
  destruct (foldl_copy_extra_config_handlers names reg (logger_key logger_name))
    as [Hh Hnd].
  split; [|exact Hnd]. intros h. unfold T', configure_extra_loggers.
  rewrite Hh. fold X T.
  assert (logger_key logger_name ∈ logger_key <$> names)
    by (by apply list_elem_of_fmap_2).
  tauto.
Qed.

(** ** A first call, from the wiring to the extra loggers *)

Section FirstCall.
Context `{E : Externals}.

(** X17: when a first call of [setup_logging] returns, [dictConfig] has
    wired the loggers for the configuration that the call loaded, and in
    the registry the call leaves behind ['prefect.extra'] is as that
    wiring made it; if it has a handler, every logger named in
    [PREFECT_LOGGING_EXTRA_LOGGERS] holds its handlers and its propagate
    flag, and has its level exactly when the wiring gave the logger none. *)
Theorem setup_logging_extra_loggers (w : world) (settings : Settings)
    (st st1 : process) :
  PROCESS_LOGGING_CONFIG st = None ->
  setup_logging w settings st = (Ret tt, st1) ->
  exists config wired,
    load_logging_config w (logging_path w settings) settings = Ret config /\
    PROCESS_LOGGING_CONFIG st1 = Some config /\
    configure config (loggers st) = (Ret tt, wired) /\
    logger_at (loggers st1) "prefect.extra" = logger_at wired "prefect.extra" /\
    (handlers (logger_at wired "prefect.extra") <> [] ->
     forall logger_name,
       logger_name ∈ PREFECT_LOGGING_EXTRA_LOGGERS settings ->
       (forall h, h ∈ handlers (logger_at wired "prefect.extra") ->
                  h ∈ handlers (logger_at (loggers st1) (logger_key logger_name))) /\
       propagate (logger_at (loggers st1) (logger_key logger_name))
         = propagate (logger_at wired "prefect.extra") /\
       level (logger_at (loggers st1) (logger_key logger_name))
         = if Z.eqb (level (logger_at wired (logger_key logger_name))) NOTSET
           then level (logger_at wired "prefect.extra")
           else level (logger_at wired (logger_key logger_name))).
Proof.
  intros Hst. unfold setup_logging. rewrite Hst.
  destruct (load_logging_config _ _ _) as [config|e]; [|done].
  simpl truthy. cbv iota. unfold dictConfig.
  destruct (dict_get config "version") as [v|]; [|done].
  destruct (py_eq v (VInt 1)); [|done]. simpl loggers.
  destruct (configure config (loggers st)) as [[[]|e] wired] eqn:Hconf; [|done].
  intros [= <-]. exists config, wired. simpl.
  split; [done|]. split; [done|]. split; [done|].
  destruct (foldl_copy_extra_config (PREFECT_LOGGING_EXTRA_LOGGERS settings) wired)
    as (HX & _ & _ & Hcons).
  split; [exact HX|]. intros Hhs logger_name Hin.
  apply (Hcons Hhs (logger_key logger_name)). by apply list_elem_of_fmap_2.
Qed.
End FirstCall.

(** ** The further properties on example data *)

Lemma load_logging_config_prefixed_only_witness :
  load_logging_config (E := Example.externals)
    (Example.world_with Example.level_text Scenario.home_env) "logging.yml" "INFO"
  = load_logging_config (E := Example.externals)
      (Example.world_with Example.level_text ∅) "logging.yml" "INFO".
Proof.
  apply (load_logging_config_prefixed_only (E := Example.externals)).
  - reflexivity.
  - intros rest. simpl. unfold Scenario.home_env.
    rewrite lookup_singleton_ne, lookup_empty; [done|].
    rewrite append_cons. discriminate.
Defined.

Lemma substitute_agree_witness :
  substitute Example.level_text Scenario.level_only
  = substitute Example.level_text Scenario.level_and_more.
Proof.
  apply substitute_agree. intros id Hid.
  assert (Hnames : placeholders Example.level_text = ["LOG_LEVEL"])
    by (vm_compute; reflexivity).
  rewrite Hnames in Hid. apply list_elem_of_singleton in Hid as ->.
  vm_compute. reflexivity.
Defined.

Lemma substitute_no_delimiter_witness :
  substitute Example.base_text Scenario.level_only = Ret Example.base_text.
Proof. apply substitute_no_delimiter. vm_compute. reflexivity. Defined.

Lemma substitute_raises_witness :
  KeyError "NO_SUCH_SETTING" = ValueError "Invalid placeholder in string" \/
  exists id, KeyError "NO_SUCH_SETTING" = KeyError id /\
             id ∈ placeholders Example.unknown_text /\
             Scenario.level_only !! id = None.
Proof.
  apply (substitute_raises Example.unknown_text Scenario.level_only).
  vm_compute. reflexivity.
Defined.

Lemma setup_logging_raise_keeps_config_witness :
  PROCESS_LOGGING_CONFIG
    (snd (setup_logging (E := Example.externals)
            (Example.world_with Example.unknown_text ∅) "INFO"
            Example.after_first))
    = PROCESS_LOGGING_CONFIG Example.after_first /\
  (truthy (PROCESS_LOGGING_CONFIG Example.after_first) = true ->
   snd (setup_logging (E := Example.externals)
          (Example.world_with Example.unknown_text ∅) "INFO"
          Example.after_first) = Example.after_first).
Proof.
  apply (setup_logging_raise_keeps_config (E := Example.externals)
           (Example.world_with Example.unknown_text ∅) "INFO"
           Example.after_first (KeyError "NO_SUCH_SETTING")).
  vm_compute. reflexivity.
Defined.

Lemma setup_logging_repeat_witness :
  setup_logging (E := Example.externals)
    (Example.world_with Example.level_text ∅) "INFO" Scenario.first_state
  = (Ret tt, Scenario.first_state).
Proof.
  apply (setup_logging_repeat (E := Example.externals)
           (Example.world_with Example.level_text ∅) "INFO"
           (initial_process Example.root_only) Scenario.first_state
           [("version", VInt 1); ("level", VStr "INFO")]).
  - reflexivity.
  - vm_compute. reflexivity.
  - vm_compute. reflexivity.
  - decide_by_evaluation.
  - repeat constructor.
Defined.

Lemma loggers_frozen_after_setup_witness :
  loggers (run (E := Example.externals)
             [(Example.world_with Scenario.other_version_text ∅, "DEBUG");
              (Example.world_with Example.unknown_text ∅, "INFO")]
             Scenario.first_state)
  = loggers Scenario.first_state.
Proof.
  apply (loggers_frozen_after_setup (E := Example.externals)
           (Example.world_with Example.level_text ∅) "INFO"
           (initial_process Example.root_only)).
  - reflexivity.
  - vm_compute. reflexivity.
Defined.

Lemma setup_logging_drift_report_witness :
  setup_logging (E := Example.externals)
    (Example.world_with Scenario.other_version_text ∅) "INFO" Example.after_first
  = (Ret tt,
     match List.filter (differs [("version", VInt 1)]) [("version", VInt 2)] with
     | [] => Example.after_first
     | item :: items => emit (Warning (item :: items)) Example.after_first
     end).
Proof.
  apply (setup_logging_drift_report (E := Example.externals)
           (Example.world_with Scenario.other_version_text ∅) "INFO"
           Example.after_first [("version", VInt 1)] [("version", VInt 2)]).
  - vm_compute. reflexivity.
  - discriminate.
  - vm_compute. reflexivity.
  - intros k Hk. exact Hk.
Defined.

Lemma apply_env_overrides_no_variable_witness :
  apply_env_overrides Scenario.home_env Example.mixed_config
  = flatdict_to_dict (dict_to_flatdict Example.mixed_config).
Proof.
  apply apply_env_overrides_no_variable.
  intros rest. left. unfold Scenario.home_env.
  rewrite lookup_singleton_ne; [done|]. rewrite append_cons. discriminate.
Defined.

Lemma version_override_rejected_witness :
  exists st1,
    setup_logging (E := Example.externals)
      (Example.world_with Example.base_text Scenario.version_env) "INFO"
      (initial_process Example.root_only)
    = (Raise (ValueError "Unsupported version"), st1) /\
    PROCESS_LOGGING_CONFIG st1 = None /\
    loggers st1 = loggers (initial_process Example.root_only).
Proof.
  apply (version_override_rejected (E := Example.externals)
           (Example.world_with Example.base_text Scenario.version_env) "INFO"
           (initial_process Example.root_only) Example.base_text
           [("version", VInt 1)] (VInt 1) "1").
  - reflexivity.
  - vm_compute. reflexivity.
  - vm_compute. reflexivity.
  - solve_wf.
  - reflexivity.
  - exact I.
  - vm_compute. reflexivity.
  - discriminate.
Defined.

Lemma configure_extra_loggers_others_witness :
  logger_at (configure_extra_loggers ["uvicorn"; "prefect.extra"] Example.with_extra)
            "prefect.extra"
    = logger_at Example.with_extra "prefect.extra" /\
  logger_at (configure_extra_loggers ["uvicorn"; "prefect.extra"] Example.with_extra)
            "sqlalchemy"
    = logger_at Example.with_extra "sqlalchemy".
Proof.
  destruct (configure_extra_loggers_others ["uvicorn"; "prefect.extra"]
              Example.with_extra) as [Hextra Hothers].
  split; [exact Hextra|]. apply Hothers. decide_by_evaluation.
Defined.

Lemma configure_extra_loggers_handlers_witness :
  (forall h,
     h ∈ handlers (logger_at (configure_extra_loggers ["sqlalchemy"; "sqlalchemy"]
                                Example.with_extra) "sqlalchemy") <->
     h ∈ [7] \/ h ∈ [3]) /\
  NoDup (handlers (logger_at (configure_extra_loggers ["sqlalchemy"; "sqlalchemy"]
                                Example.with_extra) "sqlalchemy")).
Proof.
  destruct (configure_extra_loggers_handlers ["sqlalchemy"; "sqlalchemy"]
              Example.with_extra "sqlalchemy" ltac:(decide_by_evaluation))
    as [Hh Hnd].
  split; [exact Hh|]. apply Hnd. decide_by_evaluation.
Defined.

Lemma setup_logging_extra_loggers_witness :
  exists config wired,
    load_logging_config (E := Example.externals)
      (Example.world_with Example.level_text ∅)
      (logging_path (E := Example.externals)
         (Example.world_with Example.level_text ∅) "INFO") "INFO" = Ret config /\
    PROCESS_LOGGING_CONFIG Scenario.first_state = Some config /\
    Example.wire config (loggers (initial_process Example.root_only))
      = (Ret tt, wired) /\
    logger_at (loggers Scenario.first_state) "prefect.extra"
      = logger_at wired "prefect.extra" /\
    (handlers (logger_at wired "prefect.extra") <> [] ->
     forall logger_name,
       logger_name ∈ ["uvicorn"] ->
       (forall h, h ∈ handlers (logger_at wired "prefect.extra") ->
                  h ∈ handlers (logger_at (loggers Scenario.first_state)
                                          (logger_key logger_name))) /\
       propagate (logger_at (loggers Scenario.first_state) (logger_key logger_name))
         = propagate (logger_at wired "prefect.extra") /\
       level (logger_at (loggers Scenario.first_state) (logger_key logger_name))
         = if Z.eqb (level (logger_at wired (logger_key logger_name))) NOTSET
           then level (logger_at wired "prefect.extra")
           else level (logger_at wired (logger_key logger_name))).
Proof.
  apply (setup_logging_extra_loggers (E := Example.externals)
           (Example.world_with Example.level_text ∅) "INFO"
           (initial_process Example.root_only) Scenario.first_state).
  - reflexivity.
  - vm_compute. reflexivity.
Defined.
